(** * legwork.source: classification and dispatch of gravitational-wave sources

    A shallow embedding of [legwork/source.py] (class [Source] and its
    subclasses) together with the properties of its harmonic model, its
    eccentricity classifier and its SNR dispatcher.

    Conventions of the embedding:
    - a NumPy float array is a [list Q]; a float is a [Q].  Finite floats are
      rationals and their comparisons are the comparisons of those rationals;
      arithmetic is exact here, where the machine rounds, and there is no
      NaN and no infinity.  Where the rounding decides a property, in the
      values of [harmonics_required], the harmonic model is given a second
      time over the arithmetic as a parameter (module [fp]), with binary64 as
      an instance;
    - a NumPy boolean mask is a [list bool], an integer array a [list Z];
      the masks and the operands of the elementwise operations have the
      shape of the arrays of the object wherever [which_sources] has, and the
      errors that NumPy raises on other shapes are modelled only where a
      result of another module is written into an array;
    - a Python exception is a value of [exn], and a function that can raise
      returns a [result];
    - the formulas of [legwork.snr], [legwork.utils] and [legwork.lisa], and
      the contents of the packaged tables, are not part of [source.py]: they
      are the [Variable]s of the sections below. *)

From Stdlib Require Import QArith Qround ZArith Lia Lqa Sorted.
From Stdlib Require Uint63.
From Corelib Require PrimFloat FloatOps SpecFloat.
From stdpp Require Import base list strings gmap.

Local Open Scope nat_scope.

(** ** Exceptions and results *)

(** The exceptions of [source.py], and [ExternalError] for what a call
    into another module raises, such as a unit conversion of astropy. *)
Inductive exn : Type :=
  | ValueError (msg : string)
  | AssertionError (msg : string)
  | IndexError
  | ExternalError (origin : string).

Inductive result (A : Type) : Type :=
  | Ok (x : A)
  | Raise (e : exn).
Arguments Ok {A} x.
Arguments Raise {A} e.

Definition rbind {A B : Type} (r : result A) (k : A → result B) : result B :=
  match r with
  | Ok x => k x
  | Raise e => Raise e
  end.

#[global] Instance result_ret : MRet result := λ A x, Ok x.
#[global] Instance result_bind : MBind result := λ A B k r, rbind r k.

(** ** NumPy arrays as lists *)

Module np.

(** [mask.any()] *)
Definition any (mask : list bool) : bool := existsb id mask.

(** [np.logical_not(mask)] *)
Definition logical_not (mask : list bool) : list bool := map negb mask.

(** [np.logical_and(a, b)], for operands of one shape. *)
Definition logical_and (a b : list bool) : list bool := zip_with andb a b.

(** [np.repeat(x, n)] and [np.zeros(n)] *)
Definition repeat {A : Type} (x : A) (n : nat) : list A := replicate n x.
Definition zeros (n : nat) : list Q := replicate n 0%Q.

(** Number of [True] entries of a mask. *)
Fixpoint count (mask : list bool) : nat :=
  match mask with
  | [] => 0
  | b :: mask' => (if b then 1 else 0) + count mask'
  end.

(** Position that entry [i] of an array takes in [arr[mask]]: the number of
    selected entries before it. *)
Definition rank (mask : list bool) (i : nat) : nat := count (take i mask).

(** Boolean-mask read [arr[mask]]. *)
Fixpoint select {A : Type} (arr : list A) (mask : list bool) : list A :=
  match arr, mask with
  | x :: arr', b :: mask' =>
      if b then x :: select arr' mask' else select arr' mask'
  | _, _ => []
  end.

(** Boolean-mask write, value by value: the selected positions take the
    values of [v] in order. *)
Fixpoint put (arr : list Q) (mask : list bool) (v : list Q) : list Q :=
  match arr, mask with
  | x :: arr', true :: mask' =>
      match v with
      | y :: v' => y :: put arr' mask' v'
      | [] => x :: put arr' mask' []
      end
  | x :: arr', false :: mask' => x :: put arr' mask' v
  | _, _ => arr
  end.

(** [arr[mask] = v]: [v] has one value per selected position, or is a
    single value that is broadcast; any other shape is a [ValueError]. *)
Definition assign (arr : list Q) (mask : list bool) (v : list Q)
  : result (list Q) :=
  if decide (length v = count mask) then Ok (put arr mask v)
  else match v with
       | [y] => Ok (put arr mask (replicate (count mask) y))
       | _ => Raise (ValueError "NumPy boolean array indexing assignment cannot assign input values to the output values where the mask is true")
       end.

End np.

(** ** Comparisons of floats *)

Definition Qleb (x y : Q) : bool := Qle_bool x y.
Definition Qltb (x y : Q) : bool := negb (Qle_bool y x).

(** ** Python values

    The values that reach [Source] from its caller: the arguments of the
    constructor, the tri-state flags of [get_source_mask] and the entries of
    [sc_params].  A scalar quantity is a [PyQuantity] of one magnitude. *)

Inductive pyval : Type :=
  | PyNone
  | PyBool (b : bool)
  | PyInt (z : Z)
  | PyFloat (q : Q)
  | PyStr (s : string)
  | PyArray (v : list Q)
  | PyQuantity (magnitude : list Q) (unit : string).

(** [isinstance(x, u.quantity.Quantity)] *)
Definition is_quantity (x : pyval) : bool :=
  match x with
  | PyQuantity _ _ => true
  | _ => false
  end.

(** [x is None] *)
Definition is_none (x : pyval) : bool :=
  match x with
  | PyNone => true
  | _ => false
  end.

(** The three values of a tri-state flag: [None], [True] and [False]. *)
Definition tri_state (x : pyval) : Prop :=
  x = PyNone ∨ x = PyBool true ∨ x = PyBool false.

(** ** The state of a [Source] object *)

Record Source : Type := mkSource {
  m_1 : list Q;
  m_2 : list Q;
  m_c : list Q;
  ecc : list Q;
  dist : list Q;
  stat_tol : Q;
  f_orb : list Q;
  a : list Q;
  n_proc : Z;
  snr : option (list Q);
  n_sources : nat;
  interpolate_sc : bool;
  _sc_params : gmap string pyval;
  _gw_lum_tol : Q;
  harmonics_required : Q → Z;
  dominant_harmonic : Q → Z;
  ecc_tol : Q;
  g : option (Z → Q → Q);
  sc : option (Q → Q)
}.

Definition set_snr (self : Source) (v : option (list Q)) : Source :=
  mkSource (m_1 self) (m_2 self) (m_c self) (ecc self) (dist self)
    (stat_tol self) (f_orb self) (a self) (n_proc self) v (n_sources self)
    (interpolate_sc self) (_sc_params self) (_gw_lum_tol self)
    (harmonics_required self) (dominant_harmonic self) (ecc_tol self)
    (g self) (sc self).

(** The invariant that the constructor establishes: every per-source array
    has [n_sources] entries. *)
Record same_length (self : Source) : Prop := {
  len_m_1 : length (m_1 self) = n_sources self;
  len_m_2 : length (m_2 self) = n_sources self;
  len_m_c : length (m_c self) = n_sources self;
  len_ecc : length (ecc self) = n_sources self;
  len_dist : length (dist self) = n_sources self;
  len_f_orb : length (f_orb self) = n_sources self;
  len_a : length (a self) = n_sources self
}.

(** ** Classification masks and the SNR dispatcher *)

(** The ranges of required harmonics that are evaluated together. *)
Definition harmonic_groups : list (Z * Z) :=
  [(1, 10); (10, 100); (100, 1000); (1000, 10000)]%Z.

(** A count [h] is in the range [lower <= h < upper] of a group. *)
Definition in_group (grp : Z * Z) (h : Z) : Prop := (grp.1 <= h < grp.2)%Z.

(** [np.logical_and(harmonics_required >= lower, harmonics_required < upper)] *)
Definition harm_mask (hreq : list Z) (grp : Z * Z) : list bool :=
  np.logical_and (map (λ h, (grp.1 <=? h)%Z) hreq)
                 (map (λ h, (h <? grp.2)%Z) hreq).

(** [match = np.logical_and(harm_mask, ind_ecc)] *)
Definition harm_match (hreq : list Z) (ind_ecc : list bool) (grp : Z * Z)
  : list bool :=
  np.logical_and (harm_mask hreq grp) ind_ecc.

(** The loop [for lower, upper in harmonic_groups] of both eccentric paths;
    [formula mask hr] is the call of the SNR formula on the sources of
    [mask] with [harmonics_required=hr]. *)
Fixpoint run_groups (formula : list bool → Z → list Q) (hreq : list Z)
    (ind_ecc : list bool) (snr : list Q) (groups : list (Z * Z))
  : result (list Q) :=
  match groups with
  | [] => Ok snr
  | grp :: groups' =>
      let match_ := harm_match hreq ind_ecc grp in
      snr' ← (if np.any match_
              then let hr := (grp.2 - 1)%Z in
                   np.assign snr match_ (formula match_ hr)
              else Ok snr);
      run_groups formula hreq ind_ecc snr' groups'
  end.

(** [ind_ecc] and [ind_circ] of [get_snr_stationary] and [get_snr_evolving] *)
Definition ind_ecc (self : Source) (which_sources : list bool) : list bool :=
  np.logical_and (map (λ e, Qltb (ecc_tol self) e) (ecc self)) which_sources.

Definition ind_circ (self : Source) (which_sources : list bool) : list bool :=
  np.logical_and (map (λ e, Qleb e (ecc_tol self)) (ecc self)) which_sources.

(** The masks [match] that the loop over [harmonic_groups] builds, one per
    group. *)
Definition bucket_masks (self : Source) (which_sources : list bool)
  : list (list bool) :=
  map (harm_match (map (harmonics_required self) (ecc self))
                  (ind_ecc self which_sources))
      harmonic_groups.

Section Dispatcher.

(** [legwork.utils.determine_stationarity] and the four formulas of
    [legwork.snr], with their arguments in the order of the calls. *)
Variable determine_stationarity :
  ∀ (m_c f_orb_i : list Q) (t_evol : Q) (ecc_i : list Q) (stat_tol : Q),
    list bool.
Variable snr_circ_stationary :
  ∀ (m_c f_orb dist : list Q) (t_obs : Q)
    (interpolated_g : option (Z → Q → Q)) (interpolated_sc : option (Q → Q)),
    list Q.
Variable snr_ecc_stationary :
  ∀ (m_c f_orb ecc dist : list Q) (t_obs : Q) (harmonics_required : Z)
    (interpolated_g : option (Z → Q → Q)) (interpolated_sc : option (Q → Q)),
    list Q.
Variable snr_circ_evolving :
  ∀ (m_1 m_2 f_orb_i dist : list Q) (t_obs : Q) (n_step : Z)
    (interpolated_g : option (Z → Q → Q)) (interpolated_sc : option (Q → Q)),
    list Q.
Variable snr_ecc_evolving :
  ∀ (m_1 m_2 f_orb_i dist ecc : list Q) (harmonics_required : Z)
    (t_obs : Q) (n_step : Z)
    (interpolated_g : option (Z → Q → Q)) (interpolated_sc : option (Q → Q))
    (n_proc : Z),
    list Q.

Definition get_source_mask (self : Source) (circular stationary : pyval)
    (t_obs : Q) : result (list bool) :=
  circular_mask ←
    match circular with
    | PyNone => Ok (np.repeat true (n_sources self))
    | PyBool true => Ok (map (λ e, Qleb e (ecc_tol self)) (ecc self))
    | PyBool false => Ok (map (λ e, Qltb (ecc_tol self) e) (ecc self))
    | _ => Raise (ValueError "`circular` must be None, True or False")
    end;
  stat_mask ←
    match stationary with
    | PyNone => Ok (np.repeat true (n_sources self))
    | PyBool b =>
        let stat_mask :=
          determine_stationarity (m_c self) (f_orb self) t_obs (ecc self)
                                 (stat_tol self) in
        Ok (if b then stat_mask else np.logical_not stat_mask)
    | _ => Raise (ValueError "`stationary` must be None, True or False")
    end;
  Ok (np.logical_and circular_mask stat_mask).

(** The call of [sn.snr_ecc_stationary] on the sources of [match_]. *)
Definition ecc_stationary_call (self : Source) (t_obs : Q)
    (match_ : list bool) (hr : Z) : list Q :=
  snr_ecc_stationary (np.select (m_c self) match_)
    (np.select (f_orb self) match_) (np.select (ecc self) match_)
    (np.select (dist self) match_) t_obs hr (g self) (sc self).

(** The local array [snr] of [get_snr_stationary] before the final
    [snr[which_sources]]. *)
Definition get_snr_stationary_full (self : Source) (t_obs : Q)
    (which_sources : list bool) : result (list Q) :=
  let snr := np.zeros (n_sources self) in
  let ind_ecc := ind_ecc self which_sources in
  let ind_circ := ind_circ self which_sources in
  snr ← (if np.any ind_circ
         then np.assign snr ind_circ
                (snr_circ_stationary (np.select (m_c self) ind_circ)
                   (np.select (f_orb self) ind_circ)
                   (np.select (dist self) ind_circ) t_obs (g self) (sc self))
         else Ok snr);
  if np.any ind_ecc
  then let harmonics_required := map (harmonics_required self) (ecc self) in
       run_groups (ecc_stationary_call self t_obs) harmonics_required
                  ind_ecc snr harmonic_groups
  else Ok snr.

Definition get_snr_stationary (self : Source) (t_obs : Q)
    (which_sources : option (list bool)) : result (list Q) :=
  let which_sources :=
    match which_sources with
    | None => np.repeat true (n_sources self)
    | Some w => w
    end in
  snr ← get_snr_stationary_full self t_obs which_sources;
  Ok (np.select snr which_sources).

(** The call of [sn.snr_ecc_evolving] on the sources of [match_]. *)
Definition ecc_evolving_call (self : Source) (t_obs : Q) (n_step : Z)
    (match_ : list bool) (hr : Z) : list Q :=
  snr_ecc_evolving (np.select (m_1 self) match_)
    (np.select (m_2 self) match_) (np.select (f_orb self) match_)
    (np.select (dist self) match_) (np.select (ecc self) match_) hr
    t_obs n_step (g self) (sc self) (n_proc self).

Definition get_snr_evolving_full (self : Source) (t_obs : Q) (n_step : Z)
    (which_sources : list bool) : result (list Q) :=
  let snr := np.zeros (n_sources self) in
  let ind_ecc := ind_ecc self which_sources in
  let ind_circ := ind_circ self which_sources in
  snr ← (if np.any ind_circ
         then np.assign snr ind_circ
                (snr_circ_evolving (np.select (m_1 self) ind_circ)
                   (np.select (m_2 self) ind_circ)
                   (np.select (f_orb self) ind_circ)
                   (np.select (dist self) ind_circ) t_obs n_step
                   (g self) (sc self))
         else Ok snr);
  if np.any ind_ecc
  then let harmonics_required := map (harmonics_required self) (ecc self) in
       run_groups (ecc_evolving_call self t_obs n_step) harmonics_required
                  ind_ecc snr harmonic_groups
  else Ok snr.

Definition get_snr_evolving (self : Source) (t_obs : Q) (n_step : Z)
    (which_sources : option (list bool)) : result (list Q) :=
  let which_sources :=
    match which_sources with
    | None => np.repeat true (n_sources self)
    | Some w => w
    end in
  snr ← get_snr_evolving_full self t_obs n_step which_sources;
  Ok (np.select snr which_sources).

(** [Source.get_snr]: the new state of the object and the returned array.
    The messages printed under [verbose] and the warning about a
    mismatching [t_obs] change neither. *)
Definition get_snr (self : Source) (t_obs : Q) (n_step : Z)
  : result (Source * list Q) :=
  let snr := np.zeros (n_sources self) in
  stat_mask ← get_source_mask self PyNone (PyBool true) t_obs;
  let evol_mask := np.logical_not stat_mask in
  snr ← (if np.any stat_mask
         then v ← get_snr_stationary self t_obs (Some stat_mask);
              np.assign snr stat_mask v
         else Ok snr);
  snr ← (if np.any evol_mask
         then v ← get_snr_evolving self t_obs n_step (Some evol_mask);
              np.assign snr evol_mask v
         else Ok snr);
  Ok (set_snr self (Some snr), snr).

(** [Stationary.get_snr] and [Evolving.get_snr]: every source through one
    path. *)
Definition Stationary_get_snr (self : Source) (t_obs : Q)
  : result (Source * list Q) :=
  snr ← get_snr_stationary self t_obs None;
  Ok (set_snr self (Some snr), snr).

Definition Evolving_get_snr (self : Source) (t_obs : Q) (n_step : Z)
  : result (Source * list Q) :=
  snr ← get_snr_evolving self t_obs n_step None;
  Ok (set_snr self (Some snr), snr).

End Dispatcher.

(** ** The harmonic model *)

(** [arr.sum()] *)
Definition Qsum (l : list Q) : Q := foldr Qplus 0%Q l.

(** [np.max(arr)] of an integer array that is not empty. *)
Definition Zmax_arr (arr : list Z) : Z :=
  match arr with
  | [] => 0%Z
  | x :: arr' => foldr Z.max x arr'
  end.

(** Index into an array, [IndexError] out of range. *)
Definition index {A : Type} (l : list A) (i : nat) : result A :=
  match l !! i with
  | Some x => Ok x
  | None => Raise IndexError
  end.

(** The contents of [harmonics.npz] once the grid is reconstructed:
    [e_range] is [1 - np.logspace(log10(1 - e_min), log10(1 - e_max), e_len)],
    [n_max] the largest harmonic of the table and [g_vals] the values
    [g(n, e)], one row per eccentricity of the grid. *)
Record lum_table : Type := mkLumTable {
  e_range : list Q;
  n_max : Z;
  g_vals : list (list Q)
}.

(** The [while] loop of [create_harmonics_functions]: [rest] is what is left
    of the row [g_vals[i]] from index [harmonics_needed[i]] on, so that its
    head is the [g_vals[i][harmonics_needed[i] - 1]] read after the
    increment; [len_n_range] is [len(n_range)]. *)
Fixpoint add_harmonics (rest : list Q) (lum_within_tolerance : Q)
    (len_n_range : Z) (harmonics_needed_i : Z) (total_lum : Q) : result Z :=
  if Qltb total_lum lum_within_tolerance
     && (harmonics_needed_i <? len_n_range)%Z
  then match rest with
       | [] => Raise IndexError
       | g_n :: rest' =>
           add_harmonics rest' lum_within_tolerance len_n_range
                         (harmonics_needed_i + 1)%Z (total_lum + g_n)%Q
       end
  else Ok harmonics_needed_i.

(** The body of [for i in range(1, e_len)], over the indices [idx]. *)
Fixpoint harmonics_loop (gw_lum_tol : Q) (g_vals : list (list Q))
    (f_vals : list Q) (len_n_range : Z) (idx : list nat)
    (harmonics_needed : list Z) : result (list Z) :=
  match idx with
  | [] => Ok harmonics_needed
  | i :: idx' =>
      prev ← index harmonics_needed (i - 1);
      row ← index g_vals i;
      f_val ← index f_vals i;
      let total_lum := Qsum (take (Z.to_nat prev) row) in
      h ← add_harmonics (drop (Z.to_nat prev) row)
             ((1 - gw_lum_tol) * f_val)%Q len_n_range prev total_lum;
      harmonics_loop gw_lum_tol g_vals f_vals len_n_range idx'
                     (<[i := h]> harmonics_needed)
  end.

(** The array [harmonics_needed] of [create_harmonics_functions]. *)
Definition harmonics_needed_table (peters_f : Q → Q) (gw_lum_tol : Q)
    (lum_info : lum_table) : result (list Z) :=
  let e_len := length (e_range lum_info) in
  let len_n_range := Z.max 0 (n_max lum_info) in
  let f_vals := map peters_f (e_range lum_info) in
  let harmonics_needed := replicate e_len 0%Z in
  harmonics_needed ←
    (if decide (0 < e_len) then Ok (<[0 := 2%Z]> harmonics_needed)
     else Raise IndexError);
  harmonics_loop gw_lum_tol (g_vals lum_info) f_vals len_n_range
                 (seq 1 (e_len - 1)) harmonics_needed.

(** *** [scipy.interpolate.interp1d], linear, with [bounds_error=False]

    The interpolant of [interp1d(x, y, bounds_error=False,
    fill_value=(below, above))] for a grid [x] in increasing order: the fill
    values outside of the grid and, inside, the line through the two
    neighbouring points, [slope * (x_new - x_lo) + y_lo].  The segment is the
    one that [searchsorted], clipped to [1 .. len(x) - 1], selects. *)

Fixpoint linear_segment (x_lo y_lo : Q) (x y : list Q) (x_new : Q) : Q :=
  match x, y with
  | x_hi :: x', y_hi :: y' =>
      if Qleb x_new x_hi || bool_decide (x' = [])
      then let slope := ((y_hi - y_lo) / (x_hi - x_lo))%Q in
           (slope * (x_new - x_lo) + y_lo)%Q
      else linear_segment x_hi y_hi x' y' x_new
  | _, _ => y_lo
  end.

Definition interp1d (x y : list Q) (fill_value : Q * Q)
  : result (Q → Q) :=
  match x, y with
  | x_0 :: x', y_0 :: y' =>
      if decide (length x' = length y')
      then Ok (λ x_new,
             if Qltb x_new x_0 then fill_value.1
             else if Qltb (List.last x' x_0) x_new then fill_value.2
             else linear_segment x_0 y_0 x' y' x_new)
      else Raise (ValueError "x and y arrays must be equal in length along interpolation axis.")
  | _, _ => Raise (ValueError "x and y arrays must have at least 1 entries")
  end.

(** [np.ceil(v).astype(int)] and [np.round(v).astype(int)], the latter
    rounding halves to the even neighbour. *)
Definition ceil_int (v : Q) : Z := Qceiling v.

Definition round_int (v : Q) : Z :=
  let f := Qfloor v in
  let r := (v - inject_Z f)%Q in
  if Qltb r (1 # 2) then f
  else if Qltb (1 # 2) r then (f + 1)%Z
  else if Z.even f then f else (f + 1)%Z.

(** [row.argmax()]: the first index of the largest value. *)
Fixpoint argmax_from (best_i : nat) (best : Q) (i : nat) (row : list Q) : nat :=
  match row with
  | [] => best_i
  | v :: row' =>
      if Qltb best v then argmax_from i v (S i) row'
      else argmax_from best_i best (S i) row'
  end.

Definition argmax (row : list Q) : result nat :=
  match row with
  | [] => Raise (ValueError "attempt to get argmax of an empty sequence")
  | v :: row' => Ok (argmax_from 0 v 1 row')
  end.

Fixpoint mapM {A B : Type} (f : A → result B) (l : list A) : result (list B) :=
  match l with
  | [] => Ok []
  | x :: l' => y ← f x; ys ← mapM f l'; Ok (y :: ys)
  end.

(** [n_range[k]] for [n_range = np.arange(1, n_max + 1)]. *)
Definition n_range_at (n_max : Z) (k : nat) : result Z :=
  if decide (Z.of_nat k < n_max)%Z then Ok (Z.of_nat k + 1)%Z
  else Raise IndexError.

(** The two functions that [create_harmonics_functions] stores in the
    object. *)
Definition harmonics_functions (peters_f : Q → Q) (gw_lum_tol : Q)
    (lum_info : lum_table) : result ((Q → Z) * (Q → Z)) :=
  harmonics_needed ← harmonics_needed_table peters_f gw_lum_tol lum_info;
  let fill_value := (2%Q, inject_Z (Zmax_arr harmonics_needed)) in
  interpolated_hn ←
    interp1d (e_range lum_info) (map inject_Z harmonics_needed) fill_value;
  let harmonics_required := λ e, ceil_int (interpolated_hn e) in
  argmaxes ← mapM argmax (g_vals lum_info);
  dominant_harmonics ← mapM (n_range_at (n_max lum_info)) argmaxes;
  interpolated_dh ←
    interp1d (e_range lum_info) (map inject_Z dominant_harmonics) fill_value;
  let dominant_harmonic := λ e, round_int (interpolated_dh e) in
  Ok (harmonics_required, dominant_harmonic).

(** What the code relies on in [harmonics.npz]: a grid of at least two
    eccentricities in increasing order, and a table of [g(n, e)] with one row
    per eccentricity of the grid and [n_max] columns. *)
Record table_ok (lum_info : lum_table) : Prop := {
  ok_sorted : Sorted Qlt (e_range lum_info);
  ok_ecc : Forall (λ e, (0 <= e < 1)%Q) (e_range lum_info);
  ok_len : 2 ≤ length (e_range lum_info);
  ok_rows : length (g_vals lum_info) = length (e_range lum_info);
  ok_cols : Forall (λ row, Z.of_nat (length row) = n_max lum_info)
                   (g_vals lum_info);
  ok_n_max : (1 <= n_max lum_info)%Z
}.

(** ** The eccentricity classifier *)

(** [np.linspace(start, stop, num)] *)
Definition linspace (start stop : Q) (num : nat) : list Q :=
  let step := ((stop - start) / inject_Z (Z.of_nat (num - 1)))%Q in
  map (λ i, (start + inject_Z (Z.of_nat i) * step)%Q) (seq 0 num).

(** The mask [circular_lum < lum_within_tolerance] over a grid. *)
Definition below_tolerance (peters_g : Z → Q → Q) (peters_f : Q → Q)
    (gw_lum_tol : Q) (e_range : list Q) : list bool :=
  let circular_lum := map (peters_g 2%Z) e_range in
  let lum_within_tolerance :=
    map (λ e, ((1 - gw_lum_tol) * peters_f e)%Q) e_range in
  zip_with Qltb circular_lum lum_within_tolerance.

(** [e_range[circular_lum < lum_within_tolerance][0]] over a grid. *)
Definition first_below_tolerance (peters_g : Z → Q → Q) (peters_f : Q → Q)
    (gw_lum_tol : Q) (e_range : list Q) : result Q :=
  index (np.select e_range
           (below_tolerance peters_g peters_f gw_lum_tol e_range)) 0.

(** The grid that [find_eccentric_transition] scans. *)
Definition transition_grid : list Q := linspace 0 (2 # 10) (Z.to_nat 10000).

(** The value that [find_eccentric_transition] stores in [self.ecc_tol]. *)
Definition eccentric_transition (peters_g : Z → Q → Q) (peters_f : Q → Q)
    (gw_lum_tol : Q) : result Q :=
  first_below_tolerance peters_g peters_f gw_lum_tol transition_grid.

(** ** The life cycle of a [Source]

    The methods that build or change the cached state call into
    [legwork.utils] and [legwork.lisa] and load the packaged tables.  These
    calls are recorded, in order, in a log that survives a raised exception,
    so that what ran before a failure can be stated. *)

Inductive call : Type :=
  | UtilsGetFOrbFromA
  | UtilsGetAFromFOrb
  | UtilsEnsureArray
  | UtilsChirpMass
  | UtilsPetersF
  | UtilsPetersG
  | LoadResource (resource : string)
  | LisaPowerSpectralDensity (params : gmap string pyval).

Definition M (A : Type) : Type := list call → result A * list call.

#[global] Instance M_ret : MRet M := λ A x log, (Ok x, log).
#[global] Instance M_bind : MBind M := λ A B k m log,
  match m log with
  | (Ok x, log') => k x log'
  | (Raise e, log') => (Raise e, log')
  end.

(** Record a call, lift a result, raise. *)
Definition called (c : call) : M unit := λ log, (Ok (), log ++ [c]).
Definition lift {A : Type} (r : result A) : M A := λ log, (r, log).
Definition raise {A : Type} (e : exn) : M A := lift (Raise e).

(** *** Field updates *)

Definition set_harmonics (self : Source) (hr dh : Q → Z) : Source :=
  mkSource (m_1 self) (m_2 self) (m_c self) (ecc self) (dist self)
    (stat_tol self) (f_orb self) (a self) (n_proc self) (snr self)
    (n_sources self) (interpolate_sc self) (_sc_params self)
    (_gw_lum_tol self) hr dh (ecc_tol self) (g self) (sc self).

Definition set_ecc_tol (self : Source) (e : Q) : Source :=
  mkSource (m_1 self) (m_2 self) (m_c self) (ecc self) (dist self)
    (stat_tol self) (f_orb self) (a self) (n_proc self) (snr self)
    (n_sources self) (interpolate_sc self) (_sc_params self)
    (_gw_lum_tol self) (harmonics_required self) (dominant_harmonic self)
    e (g self) (sc self).

Definition set_gw_lum_tol (self : Source) (tol : Q) : Source :=
  mkSource (m_1 self) (m_2 self) (m_c self) (ecc self) (dist self)
    (stat_tol self) (f_orb self) (a self) (n_proc self) (snr self)
    (n_sources self) (interpolate_sc self) (_sc_params self)
    tol (harmonics_required self) (dominant_harmonic self)
    (ecc_tol self) (g self) (sc self).

Definition set_g_field (self : Source) (g' : option (Z → Q → Q)) : Source :=
  mkSource (m_1 self) (m_2 self) (m_c self) (ecc self) (dist self)
    (stat_tol self) (f_orb self) (a self) (n_proc self) (snr self)
    (n_sources self) (interpolate_sc self) (_sc_params self)
    (_gw_lum_tol self) (harmonics_required self) (dominant_harmonic self)
    (ecc_tol self) g' (sc self).

Definition set_sc_field (self : Source) (sc' : option (Q → Q)) : Source :=
  mkSource (m_1 self) (m_2 self) (m_c self) (ecc self) (dist self)
    (stat_tol self) (f_orb self) (a self) (n_proc self) (snr self)
    (n_sources self) (interpolate_sc self) (_sc_params self)
    (_gw_lum_tol self) (harmonics_required self) (dominant_harmonic self)
    (ecc_tol self) (g self) sc'.

Definition set_sc_params (self : Source) (p : gmap string pyval) : Source :=
  mkSource (m_1 self) (m_2 self) (m_c self) (ecc self) (dist self)
    (stat_tol self) (f_orb self) (a self) (n_proc self) (snr self)
    (n_sources self) (interpolate_sc self) p
    (_gw_lum_tol self) (harmonics_required self) (dominant_harmonic self)
    (ecc_tol self) (g self) (sc self).

(** The defaults of [set_sc], [4 * u.yr] first. *)
Definition default_params : gmap string pyval :=
  {[ "t_obs" := PyQuantity [4%Q] "yr";
     "L" := PyFloat 2500000000%Q;
     "fstar" := PyFloat (1909 # 100000)%Q;
     "approximate_R" := PyBool false;
     "include_confusion_noise" := PyBool true ]}.

(** The fill value of the interpolated sensitivity curve, [1e30]. *)
Definition sc_fill_value : Q := inject_Z (10 ^ 30)%Z.

(** [d1 == d2] on dictionaries: the same keys, with values that [==] holds
    of. *)
Definition dict_eq (py_eq : pyval → pyval → bool) (d1 d2 : gmap string pyval)
  : bool :=
  bool_decide (map_relation (λ _ v1 v2, py_eq v1 v2 = true)
                            (λ _ _, False) (λ _ _, False) d1 d2).

(** [len(arg)] and the values of an array argument. *)
Definition py_len (x : pyval) : nat :=
  match x with
  | PyArray v | PyQuantity v _ => length v
  | _ => 0
  end.

Definition magnitude (x : pyval) : list Q :=
  match x with
  | PyArray v | PyQuantity v _ => v
  | _ => []
  end.

(** The assertion message ["`{}` must have units".format(name)]. *)
Definition must_have_units (name : string) : exn :=
  AssertionError ("`" +:+ name +:+ "` must have units").

(** The loop of assertions of the constructor over [unit_args] and
    [unit_args_str]. *)
Fixpoint assert_units (unit_args : list pyval) (unit_args_str : list string)
  : result unit :=
  match unit_args, unit_args_str with
  | arg :: unit_args', name :: unit_args_str' =>
      if is_quantity arg then assert_units unit_args' unit_args_str'
      else Raise (must_have_units name)
  | _, _ => Ok ()
  end.

(** The names of the arguments that must have units. *)
Definition unit_args_str : list string := ["m_1"; "m_2"; "dist"; "f_orb"; "a"].

(** The argument at position [i] is the first one that is not a quantity. *)
Definition first_without_units (unit_args : list pyval) (i : nat) : Prop :=
  (∃ arg, unit_args !! i = Some arg ∧ is_quantity arg = false) ∧
  ∀ j arg, j < i → unit_args !! j = Some arg → is_quantity arg = true.

Section LifeCycle.

(** [legwork.utils]: conversions between frequency and semi-major axis,
    [ensure_array] (its first result), [chirp_mass], Peters' [g(n, e)] and
    [F(e)]. *)
Variable get_f_orb_from_a : ∀ (a m_1 m_2 : pyval), result pyval.
Variable get_a_from_f_orb : ∀ (f_orb m_1 m_2 : pyval), result pyval.
Variable ensure_array : list pyval → result (list pyval).
Variable chirp_mass : ∀ (m_1 m_2 : list Q), list Q.
Variable peters_g : Z → Q → Q.
Variable peters_f : Q → Q.

(** The packaged tables: [harmonics.npz], and [peters_g.npy] as the
    callable that [interp2d] makes of it. *)
Variable lum_info : lum_table.
Variable interp2d_peters_g : Z → Q → Q.

(** [np.logspace(-7, np.log10(2), 10000)], in Hz, and
    [lisa.power_spectral_density] on such a grid. *)
Variable frequency_range : list Q.
Variable power_spectral_density : list Q → gmap string pyval → list Q.

(** [==] on the values of [sc_params]. *)
Variable py_eq : pyval → pyval → bool.

Definition create_harmonics_functions (self : Source) : M Source :=
  called (LoadResource "harmonics.npz");;
  called UtilsPetersF;;
  fs ← lift (harmonics_functions peters_f (_gw_lum_tol self) lum_info);
  mret (set_harmonics self fs.1 fs.2).

Definition find_eccentric_transition (self : Source) : M Source :=
  called UtilsPetersG;;
  called UtilsPetersF;;
  e ← lift (eccentric_transition peters_g peters_f (_gw_lum_tol self));
  mret (set_ecc_tol self e).

Definition update_gw_lum_tol (self : Source) (gw_lum_tol : Q) : M Source :=
  let self := set_gw_lum_tol self gw_lum_tol in
  self ← create_harmonics_functions self;
  find_eccentric_transition self.

Definition set_g (self : Source) (interpolate_g : bool) : M Source :=
  if interpolate_g
  then called (LoadResource "peters_g.npy");;
       mret (set_g_field self (Some interp2d_peters_g))
  else mret (set_g_field self None).

Definition set_sc (self : Source) : M Source :=
  if interpolate_sc self
  then (* the entries of [_sc_params] replace the defaults *)
       let params := _sc_params self ∪ default_params in
       called (LisaPowerSpectralDensity params);;
       let sc := power_spectral_density frequency_range params in
       interp_sc ← lift (interp1d frequency_range sc
                           (sc_fill_value, sc_fill_value));
       (* [f] in Hz, the result per Hz *)
       mret (set_sc_field self (Some (λ f, interp_sc f)))
  else mret (set_sc_field self None).

Definition update_sc_params (self : Source) (sc_params : gmap string pyval)
  : M Source :=
  if negb (dict_eq py_eq sc_params (_sc_params self))
  then let self := set_sc_params self sc_params in
       set_sc self
  else mret self.

(** The constructor, [Source.__init__]. *)
Definition init (m_1 m_2 ecc dist : pyval) (n_proc : Z) (f_orb a : pyval)
    (gw_lum_tol stat_tol : Q) (interpolate_g interpolate_sc : bool)
    (sc_params : gmap string pyval) : M Source :=
  (if is_none f_orb && is_none a
   then raise (ValueError "Either `f_orb` or `a` must be specified")
   else mret ());;
  f_orb ← (if is_none f_orb
           then called UtilsGetFOrbFromA;; lift (get_f_orb_from_a a m_1 m_2)
           else mret f_orb);
  a ← (if is_none a
       then called UtilsGetAFromFOrb;; lift (get_a_from_f_orb f_orb m_1 m_2)
       else mret a);
  let unit_args := [m_1; m_2; dist; f_orb; a] in
  lift (assert_units unit_args unit_args_str);;
  called UtilsEnsureArray;;
  fixed_args ← lift (ensure_array [m_1; m_2; dist; f_orb; a; ecc]);
  match fixed_args with
  | [m_1; m_2; dist; f_orb; a; ecc] =>
      let array_args := [m_1; m_2; dist; f_orb; a; ecc] in
      let length_check :=
        map (λ arg, negb (bool_decide (py_len arg = py_len m_1))) array_args in
      (if np.any length_check
       then raise (ValueError "All input arrays must have the same length")
       else mret ());;
      called UtilsChirpMass;;
      let self :=
        mkSource (magnitude m_1) (magnitude m_2)
          (chirp_mass (magnitude m_1) (magnitude m_2)) (magnitude ecc)
          (magnitude dist) stat_tol (magnitude f_orb) (magnitude a) n_proc
          None (py_len m_1) interpolate_sc sc_params
          (* attributes that the calls below set *)
          0%Q (λ _, 0%Z) (λ _, 0%Z) 0%Q None None in
      self ← update_gw_lum_tol self gw_lum_tol;
      self ← set_g self interpolate_g;
      set_sc self
  | _ => raise (ValueError "not enough values to unpack")
  end.

End LifeCycle.


(** ** Machine arithmetic

    NumPy and SciPy compute in binary64, where the definitions above compute
    in exact rationals.  For the harmonic model the difference shows in the
    values of [harmonics_required]; the model is therefore given a second
    time, over the arithmetic as a parameter: the operations on floats that
    [create_harmonics_functions] uses are the fields of a record, with exact
    rational arithmetic and binary64 as its two instances. *)

Module fp.

Record arith (F : Type) : Type := mkArith {
  (** an integer as a float, [astype(float)] *)
  of_int : Z → F;
  add : F → F → F;
  sub : F → F → F;
  mul : F → F → F;
  div : F → F → F;
  ltb : F → F → bool;
  leb : F → F → bool;
  (** [arr.sum()] *)
  sum : list F → F;
  (** [np.ceil(v).astype(int)] and [np.round(v).astype(int)] *)
  ceil : F → Z;
  round : F → Z
}.
Arguments of_int {F} _ _.
Arguments add {F} _ _ _.
Arguments sub {F} _ _ _.
Arguments mul {F} _ _ _.
Arguments div {F} _ _ _.
Arguments ltb {F} _ _ _.
Arguments leb {F} _ _ _.
Arguments sum {F} _ _.
Arguments ceil {F} _ _.
Arguments round {F} _ _.

(** The contents of [harmonics.npz], as [lum_table] above. *)
Record lum_table (F : Type) : Type := mkLumTable {
  e_range : list F;
  n_max : Z;
  g_vals : list (list F)
}.
Arguments e_range {F} _.
Arguments n_max {F} _.
Arguments g_vals {F} _.

Section Generic.

Context {F : Type} (ops : arith F).

(** The [while] loop of [create_harmonics_functions]. *)
Fixpoint add_harmonics (rest : list F) (lum_within_tolerance : F)
    (len_n_range : Z) (harmonics_needed_i : Z) (total_lum : F) : result Z :=
  if ltb ops total_lum lum_within_tolerance
     && (harmonics_needed_i <? len_n_range)%Z
  then match rest with
       | [] => Raise IndexError
       | g_n :: rest' =>
           add_harmonics rest' lum_within_tolerance len_n_range
                         (harmonics_needed_i + 1)%Z (add ops total_lum g_n)
       end
  else Ok harmonics_needed_i.

(** The body of [for i in range(1, e_len)], over the indices [idx]. *)
Fixpoint harmonics_loop (gw_lum_tol : F) (g_vals : list (list F))
    (f_vals : list F) (len_n_range : Z) (idx : list nat)
    (harmonics_needed : list Z) : result (list Z) :=
  match idx with
  | [] => Ok harmonics_needed
  | i :: idx' =>
      prev ← index harmonics_needed (i - 1);
      row ← index g_vals i;
      f_val ← index f_vals i;
      let total_lum := sum ops (take (Z.to_nat prev) row) in
      h ← add_harmonics (drop (Z.to_nat prev) row)
             (mul ops (sub ops (of_int ops 1) gw_lum_tol) f_val)
             len_n_range prev total_lum;
      harmonics_loop gw_lum_tol g_vals f_vals len_n_range idx'
                     (<[i := h]> harmonics_needed)
  end.

(** The array [harmonics_needed]. *)
Definition harmonics_needed_table (peters_f : F → F) (gw_lum_tol : F)
    (lum_info : lum_table F) : result (list Z) :=
  let e_len := length (e_range lum_info) in
  let len_n_range := Z.max 0 (n_max lum_info) in
  let f_vals := map peters_f (e_range lum_info) in
  let harmonics_needed := replicate e_len 0%Z in
  harmonics_needed ←
    (if decide (0 < e_len) then Ok (<[0 := 2%Z]> harmonics_needed)
     else Raise IndexError);
  harmonics_loop gw_lum_tol (g_vals lum_info) f_vals len_n_range
                 (seq 1 (e_len - 1)) harmonics_needed.

(** The interpolant of [interp1d] inside its grid,
    [slope * (x_new - x_lo) + y_lo] with
    [slope = (y_hi - y_lo) / (x_hi - x_lo)], each operation rounded as the
    arithmetic rounds it. *)
Fixpoint linear_segment (x_lo y_lo : F) (x y : list F) (x_new : F) : F :=
  match x, y with
  | x_hi :: x', y_hi :: y' =>
      if leb ops x_new x_hi || match x' with [] => true | _ => false end
      then let slope := div ops (sub ops y_hi y_lo) (sub ops x_hi x_lo) in
           add ops (mul ops slope (sub ops x_new x_lo)) y_lo
      else linear_segment x_hi y_hi x' y' x_new
  | _, _ => y_lo
  end.

Definition interp1d (x y : list F) (fill_value : F * F) : result (F → F) :=
  match x, y with
  | x_0 :: x', y_0 :: y' =>
      if decide (length x' = length y')
      then Ok (λ x_new,
             if ltb ops x_new x_0 then fill_value.1
             else if ltb ops (List.last x' x_0) x_new then fill_value.2
             else linear_segment x_0 y_0 x' y' x_new)
      else Raise (ValueError "x and y arrays must be equal in length along interpolation axis.")
  | _, _ => Raise (ValueError "x and y arrays must have at least 1 entries")
  end.

(** [row.argmax()] *)
Fixpoint argmax_from (best_i : nat) (best : F) (i : nat) (row : list F)
  : nat :=
  match row with
  | [] => best_i
  | v :: row' =>
      if ltb ops best v then argmax_from i v (S i) row'
      else argmax_from best_i best (S i) row'
  end.

Definition argmax (row : list F) : result nat :=
  match row with
  | [] => Raise (ValueError "attempt to get argmax of an empty sequence")
  | v :: row' => Ok (argmax_from 0 v 1 row')
  end.

(** The two functions that [create_harmonics_functions] stores. *)
Definition harmonics_functions (peters_f : F → F) (gw_lum_tol : F)
    (lum_info : lum_table F) : result ((F → Z) * (F → Z)) :=
  harmonics_needed ← harmonics_needed_table peters_f gw_lum_tol lum_info;
  let fill_value :=
    (of_int ops 2, of_int ops (Zmax_arr harmonics_needed)) in
  interpolated_hn ←
    interp1d (e_range lum_info) (map (of_int ops) harmonics_needed)
             fill_value;
  let harmonics_required := λ e, ceil ops (interpolated_hn e) in
  argmaxes ← mapM argmax (g_vals lum_info);
  dominant_harmonics ← mapM (n_range_at (n_max lum_info)) argmaxes;
  interpolated_dh ←
    interp1d (e_range lum_info) (map (of_int ops) dominant_harmonics)
             fill_value;
  let dominant_harmonic := λ e, round ops (interpolated_dh e) in
  Ok (harmonics_required, dominant_harmonic).


End Generic.

(** *** Exact arithmetic *)

Definition exact : arith Q :=
  mkArith Q inject_Z Qplus Qminus Qmult Qdiv Qltb Qleb Qsum ceil_int
          round_int.

(** *** binary64

    Rocq's primitive floats are the binary64 numbers of IEEE 754 with
    rounding to the nearest, ties to even, which is the arithmetic of NumPy's
    [float64]. *)







End fp.

(** ** Sample inputs

    Small tables, formulas and sources on which the functions above can be
    run. *)

Module sample.

(** Vectorised stand-ins for [determine_stationarity] and the formulas of
    [legwork.snr]: a source is stationary below 1 mHz, and the eccentric
    formulas return the cutoff that they are called with. *)
Definition determine_stationarity (m_c f_orb_i : list Q) (t_evol : Q)
    (ecc_i : list Q) (stat_tol : Q) : list bool :=
  map (λ f, Qleb f (1 # 1000)) f_orb_i.

Definition snr_circ_stationary (m_c f_orb dist : list Q) (t_obs : Q)
    (interpolated_g : option (Z → Q → Q)) (interpolated_sc : option (Q → Q))
  : list Q :=
  map (λ _, 1%Q) m_c.

Definition snr_ecc_stationary (m_c f_orb ecc dist : list Q) (t_obs : Q)
    (harmonics_required : Z)
    (interpolated_g : option (Z → Q → Q)) (interpolated_sc : option (Q → Q))
  : list Q :=
  map (λ _, inject_Z harmonics_required) m_c.

Definition snr_circ_evolving (m_1 m_2 f_orb_i dist : list Q) (t_obs : Q)
    (n_step : Z)
    (interpolated_g : option (Z → Q → Q)) (interpolated_sc : option (Q → Q))
  : list Q :=
  map (λ _, 2%Q) m_1.

Definition snr_ecc_evolving (m_1 m_2 f_orb_i dist ecc : list Q)
    (harmonics_required : Z) (t_obs : Q) (n_step : Z)
    (interpolated_g : option (Z → Q → Q)) (interpolated_sc : option (Q → Q))
    (n_proc : Z) : list Q :=
  map (λ _, (inject_Z harmonics_required + 1)%Q) m_1.

(** A table of five harmonics over three eccentricities, with
    [F(e) = 1 + e]. *)
Definition peters_f (e : Q) : Q := (1 + e)%Q.

Definition lum_info : lum_table :=
  mkLumTable [0; 1 # 2; 9 # 10]%Q 5
    [ [0; 1; 0; 0; 0];
      [1 # 10; 1; 3 # 10; 1 # 10; 0];
      [1 # 10; 1 # 2; 1 # 2; 1 # 2; 1 # 2] ]%Q.

(** A table of 10000 harmonics in which the luminosity at [e = 0.99] is not
    reached by any number of them. *)
Definition peters_f_high (e : Q) : Q :=
  if Qleb e (1 # 2) then 1%Q else 20000%Q.

Definition lum_info_high : lum_table :=
  mkLumTable [0; 99 # 100]%Q 10000
    [ replicate (Z.to_nat 10000) 1%Q; replicate (Z.to_nat 10000) 1%Q ].

(** The function of required harmonics that a table gives at a tolerance of
    5 per cent. *)
Definition harmonics_of (peters_f : Q → Q) (lum_info : lum_table) : Q → Z :=
  match harmonics_functions peters_f (5 # 100) lum_info with
  | Ok fs => fs.1
  | Raise _ => λ _, 0%Z
  end.

(** Three sources: a circular one and two eccentric ones. *)
Definition source_of (hr : Q → Z) (ecc : list Q) : Source :=
  mkSource [10; 10; 10]%Q [10; 10; 10]%Q [87 # 10; 87 # 10; 87 # 10]%Q
    ecc [1; 1; 1]%Q (1 # 100)
    [1 # 10000; 1 # 100; 1 # 2000]%Q [1 # 10; 1 # 100; 1 # 20]%Q 1
    None 3 true ∅ (5 # 100) hr (λ _, 2%Z) (1 # 100) None None.

Definition source_low : Source :=
  source_of (harmonics_of peters_f lum_info) [0; 1 # 2; 9 # 10]%Q.

Definition source_high : Source :=
  source_of (harmonics_of peters_f_high lum_info_high) [0; 1 # 2; 99 # 100]%Q.

(** The first sample source on an object that does not interpolate the
    sensitivity curve. *)
Definition source_no_curve : Source :=
  mkSource [10; 10; 10]%Q [10; 10; 10]%Q [87 # 10; 87 # 10; 87 # 10]%Q
    [0; 1 # 2; 9 # 10]%Q [1; 1; 1]%Q (1 # 100)
    [1 # 10000; 1 # 100; 1 # 2000]%Q [1 # 10; 1 # 100; 1 # 20]%Q 1
    None 3 false ∅ (5 # 100) (harmonics_of peters_f lum_info) (λ _, 2%Z)
    (1 # 100) None None.

(** A two-harmonic luminosity for the scan of the classifier, which falls
    with the eccentricity. *)
Definition peters_g_falling (n : Z) (e : Q) : Q := (1 - e)%Q.


(** Stand-ins for the rest of [legwork.utils] and for [legwork.lisa]. *)
Definition get_f_orb_from_a (a m_1 m_2 : pyval) : result pyval :=
  Ok (PyQuantity (magnitude a) "Hz").
Definition get_a_from_f_orb (f_orb m_1 m_2 : pyval) : result pyval :=
  Ok (PyQuantity (magnitude f_orb) "AU").
Definition ensure_array (args : list pyval) : result (list pyval) := Ok args.
Definition chirp_mass (m_1 m_2 : list Q) : list Q := m_1.
Definition interp2d_peters_g (n : Z) (e : Q) : Q := 1%Q.
Definition frequency_range : list Q := [1 # 10000000; 1 # 1000; 2]%Q.
Definition power_spectral_density (f : list Q) (params : gmap string pyval)
  : list Q :=
  map (λ _, 1%Q) f.
Definition py_eq (x y : pyval) : bool :=
  match x, y with
  | PyNone, PyNone => true
  | PyBool b1, PyBool b2 => Bool.eqb b1 b2
  | PyInt z1, PyInt z2 => (z1 =? z2)%Z
  | PyFloat q1, PyFloat q2 => Qeq_bool q1 q2
  | PyStr s1, PyStr s2 => String.eqb s1 s2
  | PyQuantity [q1] u1, PyQuantity [q2] u2 => Qeq_bool q1 q2 && String.eqb u1 u2
  | _, _ => false
  end.

End sample.

(** ** Further definitions *)

(** The calls of [sn.snr_circ_stationary] and of [sn.snr_circ_evolving] on
    the sources of a mask [ind_circ], as [get_snr_stationary] and
    [get_snr_evolving] make them. *)
Definition circ_stationary_call
    (snr_circ_stationary :
       ∀ (m_c f_orb dist : list Q) (t_obs : Q)
         (interpolated_g : option (Z → Q → Q))
         (interpolated_sc : option (Q → Q)), list Q)
    (self : Source) (t_obs : Q) (ind_circ : list bool) : list Q :=
  snr_circ_stationary (np.select (m_c self) ind_circ)
    (np.select (f_orb self) ind_circ) (np.select (dist self) ind_circ)
    t_obs (g self) (sc self).

Definition circ_evolving_call
    (snr_circ_evolving :
       ∀ (m_1 m_2 f_orb_i dist : list Q) (t_obs : Q) (n_step : Z)
         (interpolated_g : option (Z → Q → Q))
         (interpolated_sc : option (Q → Q)), list Q)
    (self : Source) (t_obs : Q) (n_step : Z) (ind_circ : list bool)
  : list Q :=
  snr_circ_evolving (np.select (m_1 self) ind_circ)
    (np.select (m_2 self) ind_circ) (np.select (f_orb self) ind_circ)
    (np.select (dist self) ind_circ) t_obs n_step (g self) (sc self).

(** ** The strains

    [strain.h_0_n] and [strain.h_c_n] return an array of shape
    (sources, times, harmonics); [harmonics] is the array of harmonics that
    they are asked for. *)

(** [arr[:, 0, :]] *)
Definition first_time (arr : list (list (list Q))) : result (list (list Q)) :=
  mapM (λ plane, index plane 0) arr.

Definition get_h_0_n
    (h_0_n :
       ∀ (m_c f_orb ecc : list Q) (n : list Z) (dist : list Q)
         (interpolated_g : option (Z → Q → Q)), list (list (list Q)))
    (self : Source) (harmonics : list Z) (which_sources : option (list bool))
  : result (list (list Q)) :=
  let which_sources :=
    match which_sources with
    | None => np.repeat true (n_sources self)
    | Some w => w
    end in
  first_time (h_0_n (np.select (m_c self) which_sources)
                (np.select (f_orb self) which_sources)
                (np.select (ecc self) which_sources) harmonics
                (np.select (dist self) which_sources) (g self)).

Definition get_h_c_n
    (h_c_n :
       ∀ (m_c f_orb ecc : list Q) (n : list Z) (dist : list Q)
         (interpolated_g : option (Z → Q → Q)), list (list (list Q)))
    (self : Source) (harmonics : list Z) (which_sources : option (list bool))
  : result (list (list Q)) :=
  let which_sources :=
    match which_sources with
    | None => np.repeat true (n_sources self)
    | Some w => w
    end in
  first_time (h_c_n (np.select (m_c self) which_sources)
                (np.select (f_orb self) which_sources)
                (np.select (ecc self) which_sources) harmonics
                (np.select (dist self) which_sources) (g self)).

(** ** Plots of the variables of the sources

    [plot_source_variables] up to its call into [legwork.visualisation]:
    the choice of the variables and of the sources.  The axis labels that it
    adds to [kwargs] are left out. *)

(** The dictionary [convert], in the order of its keys; [snr] is [None]
    until an SNR has been computed. *)
Definition convert (self : Source) : list (string * option (list Q)) :=
  [ ("m_1", Some (m_1 self)); ("m_2", Some (m_2 self));
    ("m_c", Some (m_c self)); ("ecc", Some (ecc self));
    ("dist", Some (dist self)); ("f_orb", Some (f_orb self));
    ("f_GW", Some (map (λ f, (f * 2)%Q) (f_orb self)));
    ("a", Some (a self)); ("snr", snr self) ].

(** [d[key]] on a dictionary given by its items; [None] for a key that it
    does not have. *)
Fixpoint getitem {V : Type} (d : list (string * V)) (key : string)
  : option V :=
  match d with
  | [] => None
  | (k, v) :: d' => if String.eqb key k then Some v else getitem d' key
  end.

(** The message of the error for a name that is not a key of [convert]. *)
Definition error_str : string :=
  "`xstr` and `ystr` must be one of: `m_1`, `m_2`, `m_c`, `ecc`, `dist`, `f_orb`, `f_GW`, `a`, `snr`".

(** The call into [legwork.visualisation] that ends the method. *)
Inductive plot_call : Type :=
  | Plot1DDist (x : list Q)
  | Plot2DDist (x y : list Q).

(** The names are checked first, [xstr] then [ystr], then the values
    against [None], [x] then [y].  The two arguments of the second
    [ValueError] are kept as one message. *)
Definition plot_source_variables (self : Source) (xstr : string)
    (ystr : option string) (which_sources : option (list bool))
  : result plot_call :=
  let convert := convert self in
  let which_sources :=
    match which_sources with
    | None => np.repeat true (n_sources self)
    | Some w => w
    end in
  x ← match getitem convert xstr with
      | Some x => Ok x
      | None => Raise (ValueError error_str)
      end;
  y ← match ystr with
      | None => Ok None
      | Some ystr =>
          match getitem convert ystr with
          | Some y => Ok (Some (ystr, y))
          | None => Raise (ValueError error_str)
          end
      end;
  x ← match x with
      | Some x => Ok x
      | None => Raise (ValueError ("x variable (`" +:+ xstr
                                   +:+ "`) must be not be None"))
      end;
  match y with
  | None => Ok (Plot1DDist (np.select x which_sources))
  | Some (ystr, None) =>
      Raise (ValueError ("y variable (`" +:+ ystr
                         +:+ "`) must be not be None"))
  | Some (_, Some y) =>
      Ok (Plot2DDist (np.select x which_sources) (np.select y which_sources))
  end.
(** * Properties *)

(** ** Comparisons *)

Lemma Qleb_le (x y : Q) : Qleb x y = true ↔ (x <= y)%Q.
Proof. apply Qle_bool_iff. Qed.

Lemma Qltb_lt (x y : Q) : Qltb x y = true ↔ (x < y)%Q.
Proof.
  unfold Qltb. rewrite negb_true_iff, <- not_true_iff_false, Qle_bool_iff.
  split; [apply Qnot_le_lt | apply Qlt_not_le].
Qed.

Lemma Qltb_ge (x y : Q) : Qltb x y = false ↔ (y <= x)%Q.
Proof. unfold Qltb. rewrite negb_false_iff. apply Qle_bool_iff. Qed.

(** ** Facts about masks *)

Lemma any_true_iff (mask : list bool) :
  np.any mask = true ↔ ∃ i, mask !! i = Some true.
Proof.
  unfold np.any. induction mask as [|b mask IH]; simpl.
  - split; [discriminate | intros [i Hi]; destruct i; discriminate].
  - destruct b; simpl.
    + split; [intros _; exists 0; reflexivity | reflexivity].
    + rewrite IH. split.
      * intros [i Hi]. exists (S i). exact Hi.
      * intros [[|i] Hi]; [discriminate | exists i; exact Hi].
Qed.

Lemma any_false_lookup (mask : list bool) i :
  np.any mask = false → mask !! i ≠ Some true.
Proof.
  intros Hany Hi.
  assert (np.any mask = true) by (apply any_true_iff; eauto).
  congruence.
Qed.

Lemma length_logical_and (a b : list bool) :
  length a = length b → length (np.logical_and a b) = length a.
Proof. intros H. unfold np.logical_and. rewrite length_zip_with. lia. Qed.

Lemma lookup_logical_and (a b : list bool) i :
  np.logical_and a b !! i = x ← a !! i; y ← b !! i; Some (x && y).
Proof. unfold np.logical_and. apply lookup_zip_with. Qed.

Lemma lookup_logical_and_true (a b : list bool) i :
  np.logical_and a b !! i = Some true ↔
  a !! i = Some true ∧ b !! i = Some true.
Proof.
  rewrite lookup_logical_and.
  destruct (a !! i) as [[]|], (b !! i) as [[]|]; simpl;
    split; try discriminate; try tauto; intros []; discriminate.
Qed.

Lemma lookup_logical_not (mask : list bool) i :
  np.logical_not mask !! i = negb <$> mask !! i.
Proof. unfold np.logical_not. apply list_lookup_fmap. Qed.

Lemma length_logical_not (mask : list bool) :
  length (np.logical_not mask) = length mask.
Proof. unfold np.logical_not. apply length_map. Qed.

Lemma length_select {A : Type} (arr : list A) (mask : list bool) :
  length arr = length mask → length (np.select arr mask) = np.count mask.
Proof.
  revert mask. induction arr as [|x arr IH]; intros [|b mask] Hlen;
    simpl in *; try lia.
  destruct b; simpl; rewrite IH; lia.
Qed.

Lemma length_put (arr : list Q) mask v : length (np.put arr mask v) = length arr.
Proof.
  revert mask v. induction arr as [|x arr IH]; intros [|[] mask] v; simpl; auto.
  destruct v; simpl; rewrite IH; reflexivity.
Qed.

Lemma rank_lt_count (mask : list bool) i :
  mask !! i = Some true → np.rank mask i < np.count mask.
Proof.
  unfold np.rank. revert i. induction mask as [|c mask IH]; intros [|i] Hi;
    simpl in *; try discriminate.
  - injection Hi as ->. lia.
  - specialize (IH i Hi). lia.
Qed.

(** Reading through a mask: a selected entry is found at its rank. *)
Lemma select_lookup {A : Type} (arr : list A) (mask : list bool) i :
  length arr = length mask → mask !! i = Some true →
  np.select arr mask !! np.rank mask i = arr !! i.
Proof.
  unfold np.rank. revert mask i.
  induction arr as [|x arr IH]; intros [|b mask] i Hlen Hi;
    simpl in *; try discriminate; try lia.
  destruct i as [|i]; simpl in *.
  - injection Hi as ->. reflexivity.
  - destruct b; simpl; apply IH; auto; lia.
Qed.

(** Writing through a mask: a selected entry takes the value at its rank, an
    entry that is not selected keeps its value. *)
Lemma put_lookup_true (arr : list Q) mask v i :
  length arr = length mask → length v = np.count mask →
  mask !! i = Some true →
  np.put arr mask v !! i = v !! np.rank mask i.
Proof.
  unfold np.rank. revert mask v i.
  induction arr as [|x arr IH]; intros [|b mask] v i Hlen Hv Hi;
    simpl in *; try discriminate; try lia.
  destruct i as [|i]; simpl in *.
  - injection Hi as ->. destruct v; simpl in *; [lia | reflexivity].
  - destruct b; simpl.
    + destruct v as [|y v]; simpl in *; [lia |]. apply IH; auto; lia.
    + apply IH; auto; lia.
Qed.

Lemma put_lookup_false (arr : list Q) mask v i :
  mask !! i ≠ Some true → np.put arr mask v !! i = arr !! i.
Proof.
  revert mask v i.
  induction arr as [|x arr IH]; intros [|b mask] v i Hi; simpl; auto.
  destruct b.
  - destruct i as [|i]; simpl in *; [congruence |].
    destruct v; simpl; apply IH; auto.
  - destruct i as [|i]; simpl in *; [reflexivity | apply IH; auto].
Qed.

Lemma assign_ok (arr : list Q) mask v :
  length v = np.count mask → np.assign arr mask v = Ok (np.put arr mask v).
Proof. intros H. unfold np.assign. rewrite decide_True; auto. Qed.


(** ** The loop over [harmonic_groups] *)

Lemma lookup_harm_mask (hreq : list Z) (grp : Z * Z) (i : nat) :
  harm_mask hreq grp !! i =
  (λ h, (grp.1 <=? h)%Z && (h <? grp.2)%Z) <$> hreq !! i.
Proof.
  unfold harm_mask. rewrite lookup_logical_and, !list_lookup_fmap.
  destruct (hreq !! i); reflexivity.
Qed.

Lemma lookup_harm_match_true (hreq : list Z) (ind : list bool) grp (i : nat) :
  harm_match hreq ind grp !! i = Some true ↔
  (∃ h, hreq !! i = Some h ∧ in_group grp h) ∧ ind !! i = Some true.
Proof.
  unfold harm_match, in_group.
  rewrite lookup_logical_and_true, lookup_harm_mask.
  destruct (hreq !! i) as [h|]; simpl.
  - split.
    + intros [Hh Hi]. split; [|exact Hi]. exists h. split; [reflexivity|].
      injection Hh as Hh. apply andb_true_iff in Hh as [H1 H2]. lia.
    + intros [(h' & Hh' & Hin) Hi]. injection Hh' as <-.
      split; [|exact Hi]. f_equal. apply andb_true_iff. lia.
  - split; [intros [? _]; discriminate | intros [(h & ? & _) _]; discriminate].
Qed.

Lemma length_harm_match (hreq : list Z) (ind : list bool) grp :
  length hreq = length ind → length (harm_match hreq ind grp) = length ind.
Proof.
  intros Hlen. unfold harm_match, harm_mask.
  rewrite !length_logical_and; rewrite ?length_map; auto.
  rewrite length_logical_and; rewrite ?length_map; auto.
Qed.

(** One group: the sources of the mask take the values of the formula, the
    others keep theirs. *)
Lemma group_step (snr : list Q) (mask : list bool) (v : list Q) :
  length v = np.count mask → length snr = length mask →
  ∃ snr', (if np.any mask then np.assign snr mask v else Ok snr) = Ok snr' ∧
    length snr' = length snr ∧
    (∀ i, mask !! i = Some true → snr' !! i = v !! np.rank mask i) ∧
    (∀ i, mask !! i ≠ Some true → snr' !! i = snr !! i).
Proof.
  intros Hv Hlen. destruct (np.any mask) eqn:Hany.
  - exists (np.put snr mask v). rewrite assign_ok by exact Hv.
    split; [reflexivity|]. split; [apply length_put|]. split.
    + intros i Hi. apply put_lookup_true; auto.
    + intros i Hi. apply put_lookup_false; auto.
  - exists snr. split; [reflexivity|]. split; [reflexivity|]. split.
    + intros i Hi. exfalso. exact (any_false_lookup _ _ Hany Hi).
    + reflexivity.
Qed.

Section RunGroups.

Variable formula : list bool → Z → list Q.
Variable hreq : list Z.
Variable ind : list bool.
Hypothesis hreq_length : length hreq = length ind.
Hypothesis formula_length : ∀ mask hr,
  length mask = length ind → length (formula mask hr) = np.count mask.

(** The loop returns; a source keeps the value of the last group that holds
    it, and its previous value when no group does. *)
Lemma run_groups_spec (groups : list (Z * Z)) (snr : list Q) :
  length snr = length ind →
  ∃ snr', run_groups formula hreq ind snr groups = Ok snr' ∧
    length snr' = length snr ∧
    (∀ i, (∀ grp, grp ∈ groups → harm_match hreq ind grp !! i ≠ Some true) →
          snr' !! i = snr !! i) ∧
    (∀ pre grp post i, groups = pre ++ grp :: post →
          harm_match hreq ind grp !! i = Some true →
          (∀ grp', grp' ∈ post → harm_match hreq ind grp' !! i ≠ Some true) →
          snr' !! i = formula (harm_match hreq ind grp) (grp.2 - 1)%Z
                        !! np.rank (harm_match hreq ind grp) i).
Proof.
  revert snr. induction groups as [|g0 groups IH]; intros snr Hlen.
  - exists snr. simpl. split; [reflexivity|]. split; [reflexivity|].
    split; [reflexivity|].
    intros pre grp post i Heq. destruct pre; discriminate.
  - simpl.
    destruct (group_step snr (harm_match hreq ind g0)
                (formula (harm_match hreq ind g0) (g0.2 - 1)%Z))
      as (snr1 & Hstep & Hlen1 & Hin & Hout).
    { apply formula_length, length_harm_match, hreq_length. }
    { rewrite length_harm_match; auto. }
    rewrite Hstep. simpl.
    destruct (IH snr1) as (snr' & Hrun & Hlen' & Hkeep & Hput);
      [congruence|].
    exists snr'. split; [exact Hrun|]. split; [congruence|]. split.
    + intros i Hnone. rewrite Hkeep.
      * apply Hout, Hnone. left.
      * intros grp Hgrp. apply Hnone. right. exact Hgrp.
    + intros pre grp post i Heq Hi Hpost. destruct pre as [|p pre].
      * simpl in Heq. injection Heq as -> ->.
        rewrite Hkeep by exact Hpost. apply Hin, Hi.
      * simpl in Heq. injection Heq as -> ->.
        apply (Hput pre grp post i eq_refl Hi Hpost).
Qed.

End RunGroups.

(** The four groups are disjoint and cover the counts from 1 to 9999. *)
Lemma harmonic_groups_disjoint (g1 g2 : Z * Z) (h : Z) :
  g1 ∈ harmonic_groups → g2 ∈ harmonic_groups →
  in_group g1 h → in_group g2 h → g1 = g2.
Proof.
  unfold harmonic_groups, in_group. rewrite !elem_of_cons, !elem_of_nil.
  intros [->|[->|[->|[->|[]]]]] [->|[->|[->|[->|[]]]]]; simpl;
    intros; try reflexivity; lia.
Qed.

Lemma harmonic_groups_cover (h : Z) :
  (1 <= h < 10000)%Z ↔ ∃ grp, grp ∈ harmonic_groups ∧ in_group grp h.
Proof.
  unfold harmonic_groups, in_group. split.
  - intros Hh.
    destruct (Z_lt_dec h 10); [exists (1, 10)%Z|
    destruct (Z_lt_dec h 100); [exists (10, 100)%Z|
    destruct (Z_lt_dec h 1000); [exists (100, 1000)%Z|
    exists (1000, 10000)%Z]]];
      (split; [rewrite !elem_of_cons; tauto | simpl; lia]).
  - intros (grp & Hgrp & Hin). revert Hgrp Hin.
    rewrite !elem_of_cons, !elem_of_nil.
    intros [->|[->|[->|[->|[]]]]]; simpl; lia.
Qed.

Lemma harmonic_groups_none (h : Z) (grp : Z * Z) :
  (10000 <= h)%Z → grp ∈ harmonic_groups → ¬ in_group grp h.
Proof.
  intros Hh Hgrp Hin.
  assert (1 <= h < 10000)%Z by (apply harmonic_groups_cover; eauto).
  lia.
Qed.

Lemma harm_match_cons (h : Z) hreq (b : bool) ind grp :
  harm_match (h :: hreq) (b :: ind) grp =
  ((grp.1 <=? h)%Z && (h <? grp.2)%Z && b) :: harm_match hreq ind grp.
Proof. reflexivity. Qed.

(** Membership counts: the groups hold, between them, each source of [ind]
    once when the counts of these sources are between 1 and 9999. *)
Lemma bucket_counts (hreq : list Z) (ind : list bool) :
  length hreq = length ind →
  (∀ i h, ind !! i = Some true → hreq !! i = Some h → (1 <= h < 10000)%Z) →
  sum_list (map (λ grp, np.count (harm_match hreq ind grp)) harmonic_groups)
  = np.count ind.
Proof.
  revert ind. induction hreq as [|h hreq IH]; intros [|b ind] Hlen Hrange;
    simpl in Hlen; try lia; [reflexivity|].
  assert (IH' := IH ind ltac:(lia) (λ i h', Hrange (S i) h')).
  unfold harmonic_groups in *. cbn [map sum_list] in *.
  rewrite !harm_match_cons. cbn [np.count fst snd].
  set (c1 := np.count (harm_match hreq ind (1, 10)%Z)) in *.
  set (c2 := np.count (harm_match hreq ind (10, 100)%Z)) in *.
  set (c3 := np.count (harm_match hreq ind (100, 1000)%Z)) in *.
  set (c4 := np.count (harm_match hreq ind (1000, 10000)%Z)) in *.
  unfold id in IH'. clearbody c1 c2 c3 c4.
  destruct b.
  - specialize (Hrange 0 h eq_refl eq_refl). rewrite !andb_true_r.
    destruct (Z.leb_spec 1 h), (Z.ltb_spec h 10), (Z.leb_spec 10 h),
      (Z.ltb_spec h 100), (Z.leb_spec 100 h), (Z.ltb_spec h 1000),
      (Z.leb_spec 1000 h), (Z.ltb_spec h 10000); simpl; lia.
  - rewrite !andb_false_r. simpl. lia.
Qed.

(** ** The stationary and the evolving path *)

Lemma length_ind_ecc (self : Source) (which : list bool) :
  same_length self → length which = n_sources self →
  length (ind_ecc self which) = n_sources self.
Proof.
  intros Hwf Hw. unfold ind_ecc.
  rewrite length_logical_and; rewrite length_map, (len_ecc _ Hwf); auto.
Qed.

Lemma length_ind_circ (self : Source) (which : list bool) :
  same_length self → length which = n_sources self →
  length (ind_circ self which) = n_sources self.
Proof.
  intros Hwf Hw. unfold ind_circ.
  rewrite length_logical_and; rewrite length_map, (len_ecc _ Hwf); auto.
Qed.

Lemma lookup_ind_ecc_true (self : Source) (which : list bool) (i : nat) :
  ind_ecc self which !! i = Some true ↔
  (∃ e, ecc self !! i = Some e ∧ (ecc_tol self < e)%Q) ∧
  which !! i = Some true.
Proof.
  unfold ind_ecc. rewrite lookup_logical_and_true, list_lookup_fmap.
  destruct (ecc self !! i) as [e|]; simpl.
  - split.
    + intros [He Hw]. split; [|exact Hw]. exists e. split; [reflexivity|].
      injection He as He. apply Qltb_lt, He.
    + intros [(e' & He' & Hlt) Hw]. injection He' as <-.
      split; [|exact Hw]. f_equal. apply Qltb_lt, Hlt.
  - split; [intros [? _]; discriminate | intros [(e & ? & _) _]; discriminate].
Qed.

Lemma lookup_ind_circ_true (self : Source) (which : list bool) (i : nat) :
  ind_circ self which !! i = Some true ↔
  (∃ e, ecc self !! i = Some e ∧ (e <= ecc_tol self)%Q) ∧
  which !! i = Some true.
Proof.
  unfold ind_circ. rewrite lookup_logical_and_true, list_lookup_fmap.
  destruct (ecc self !! i) as [e|]; simpl.
  - split.
    + intros [He Hw]. split; [|exact Hw]. exists e. split; [reflexivity|].
      injection He as He. apply Qleb_le, He.
    + intros [(e' & He' & Hle) Hw]. injection He' as <-.
      split; [|exact Hw]. f_equal. apply Qleb_le, Hle.
  - split; [intros [? _]; discriminate | intros [(e & ? & _) _]; discriminate].
Qed.

(** No source is both circular and eccentric. *)
Lemma ind_circ_not_ecc (self : Source) (which : list bool) (i : nat) :
  ind_circ self which !! i = Some true → ind_ecc self which !! i ≠ Some true.
Proof.
  rewrite lookup_ind_circ_true, lookup_ind_ecc_true.
  intros [(e & He & Hle) _] [(e' & He' & Hlt) _].
  assert (e' = e) as -> by congruence.
  exact (Qlt_not_le _ _ Hlt Hle).
Qed.

Lemma lookup_zeros (n i : nat) : i < n → np.zeros n !! i = Some 0%Q.
Proof. intros Hi. unfold np.zeros. apply lookup_replicate_2, Hi. Qed.

Lemma length_zeros (n : nat) : length (np.zeros n) = n.
Proof. apply length_replicate. Qed.

(** The shape that [get_snr_stationary] and [get_snr_evolving] share: the
    circular sources take the values [circ_vals], each group of eccentric
    sources the values of [formula], and every other entry stays at 0. *)
Lemma path_spec (self : Source) (which : list bool) (circ_vals : list Q)
    (formula : list bool → Z → list Q) :
  same_length self → length which = n_sources self →
  length circ_vals = np.count (ind_circ self which) →
  (∀ mask hr, length mask = n_sources self →
              length (formula mask hr) = np.count mask) →
  let hreq := map (harmonics_required self) (ecc self) in
  ∃ full,
    (snr ← (if np.any (ind_circ self which)
            then np.assign (np.zeros (n_sources self)) (ind_circ self which)
                           circ_vals
            else Ok (np.zeros (n_sources self)));
     if np.any (ind_ecc self which)
     then run_groups formula hreq (ind_ecc self which) snr harmonic_groups
     else Ok snr) = Ok full ∧
    length full = n_sources self ∧
    (∀ i, ind_circ self which !! i = Some true →
          full !! i = circ_vals !! np.rank (ind_circ self which) i) ∧
    (∀ i grp, grp ∈ harmonic_groups →
          harm_match hreq (ind_ecc self which) grp !! i = Some true →
          full !! i = formula (harm_match hreq (ind_ecc self which) grp)
                              (grp.2 - 1)%Z
                        !! np.rank (harm_match hreq (ind_ecc self which) grp) i) ∧
    (∀ i, i < n_sources self →
          ind_circ self which !! i ≠ Some true →
          (∀ grp, grp ∈ harmonic_groups →
                  harm_match hreq (ind_ecc self which) grp !! i ≠ Some true) →
          full !! i = Some 0%Q).
Proof.
  intros Hwf Hw Hcv Hf hreq.
  assert (Hlc := length_ind_circ self which Hwf Hw).
  assert (Hle := length_ind_ecc self which Hwf Hw).
  assert (Hlh : length hreq = length (ind_ecc self which)).
  { unfold hreq. rewrite length_map, (len_ecc _ Hwf). auto. }
  destruct (group_step (np.zeros (n_sources self)) (ind_circ self which)
              circ_vals Hcv) as (snr1 & Hstep & Hlen1 & Hin & Hout).
  { rewrite length_zeros. auto. }
  rewrite Hstep. simpl. rewrite length_zeros in Hlen1.
  destruct (run_groups_spec formula hreq (ind_ecc self which) Hlh
              ltac:(intros mask hr Hm; apply Hf; congruence)
              harmonic_groups snr1) as (snr2 & Hrun & Hlen2 & Hkeep & Hput);
    [congruence|].
  assert (Hmatch_ecc : ∀ i grp,
            harm_match hreq (ind_ecc self which) grp !! i = Some true →
            ind_ecc self which !! i = Some true).
  { intros i grp Hi. apply lookup_harm_match_true in Hi. tauto. }
  assert (Hwritten : ∀ i grp, grp ∈ harmonic_groups →
            harm_match hreq (ind_ecc self which) grp !! i = Some true →
            snr2 !! i = formula (harm_match hreq (ind_ecc self which) grp)
                          (grp.2 - 1)%Z
                   !! np.rank (harm_match hreq (ind_ecc self which) grp) i).
  { intros i grp Hgrp Hi.
    apply list_elem_of_split in Hgrp as (pre & post & Hsplit).
    apply (Hput pre grp post i Hsplit Hi).
    intros grp' Hgrp' Hi'.
    apply lookup_harm_match_true in Hi as [(h & Hh & Hin1) _].
    apply lookup_harm_match_true in Hi' as [(h' & Hh' & Hin2) _].
    assert (h' = h) as -> by congruence.
    assert (Hnd : NoDup harmonic_groups).
    { unfold harmonic_groups. repeat constructor;
        rewrite ?elem_of_cons, ?elem_of_nil; intros H;
        repeat destruct H as [H|H]; try discriminate; auto. }
    rewrite Hsplit in Hnd. apply NoDup_app in Hnd as (_ & _ & Hnd).
    apply NoDup_cons in Hnd as [Hnotin _]. apply Hnotin.
    assert (grp' = grp) as ->; [|exact Hgrp'].
    apply (harmonic_groups_disjoint grp' grp h); auto.
    - rewrite Hsplit. apply elem_of_app. right. right. exact Hgrp'.
    - rewrite Hsplit. apply elem_of_app. right. left. }
  destruct (np.any (ind_ecc self which)) eqn:Hany.
  - exists snr2. split; [exact Hrun|]. split; [congruence|]. split; [|split].
    + intros i Hi. rewrite Hkeep; [apply Hin, Hi|].
      intros grp _ Hm. apply (ind_circ_not_ecc self which i Hi).
      exact (Hmatch_ecc i grp Hm).
    + exact Hwritten.
    + intros i Hi Hnc Hng. rewrite Hkeep by exact Hng.
      rewrite Hout by exact Hnc. apply lookup_zeros, Hi.
  - exists snr1. split; [reflexivity|]. split; [congruence|]. split; [|split].
    + intros i Hi. apply Hin, Hi.
    + intros i grp _ Hm. exfalso.
      exact (any_false_lookup _ i Hany (Hmatch_ecc i grp Hm)).
    + intros i Hi Hnc _. rewrite Hout by exact Hnc. apply lookup_zeros, Hi.
Qed.

Lemma lookup_not_true_false (mask : list bool) (i : nat) :
  i < length mask → mask !! i ≠ Some true → mask !! i = Some false.
Proof.
  intros Hi Hne. destruct (lookup_lt_is_Some_2 mask i Hi) as [[] Hb];
    congruence.
Qed.

Lemma logical_and_repeat_true (n : nat) (mask : list bool) :
  length mask = n → np.logical_and (np.repeat true n) mask = mask.
Proof.
  unfold np.logical_and, np.repeat. revert n.
  induction mask as [|b mask IH]; intros [|n] Hlen; simpl in *;
    try discriminate; try reflexivity.
  f_equal. apply IH. lia.
Qed.

Section DispatcherProps.

Variable determine_stationarity :
  ∀ (m_c f_orb_i : list Q) (t_evol : Q) (ecc_i : list Q) (stat_tol : Q),
    list bool.
Variable snr_circ_stationary :
  ∀ (m_c f_orb dist : list Q) (t_obs : Q)
    (interpolated_g : option (Z → Q → Q)) (interpolated_sc : option (Q → Q)),
    list Q.
Variable snr_ecc_stationary :
  ∀ (m_c f_orb ecc dist : list Q) (t_obs : Q) (harmonics_required : Z)
    (interpolated_g : option (Z → Q → Q)) (interpolated_sc : option (Q → Q)),
    list Q.
Variable snr_circ_evolving :
  ∀ (m_1 m_2 f_orb_i dist : list Q) (t_obs : Q) (n_step : Z)
    (interpolated_g : option (Z → Q → Q)) (interpolated_sc : option (Q → Q)),
    list Q.
Variable snr_ecc_evolving :
  ∀ (m_1 m_2 f_orb_i dist ecc : list Q) (harmonics_required : Z)
    (t_obs : Q) (n_step : Z)
    (interpolated_g : option (Z → Q → Q)) (interpolated_sc : option (Q → Q))
    (n_proc : Z),
    list Q.

(** The formulas are vectorised: one value per source that they are given. *)
Hypothesis determine_stationarity_length : ∀ mc fo t e st,
  length fo = length mc → length e = length mc →
  length (determine_stationarity mc fo t e st) = length mc.
Hypothesis snr_circ_stationary_length : ∀ mc fo d t ig isc,
  length fo = length mc → length d = length mc →
  length (snr_circ_stationary mc fo d t ig isc) = length mc.
Hypothesis snr_ecc_stationary_length : ∀ mc fo e d t hr ig isc,
  length fo = length mc → length e = length mc → length d = length mc →
  length (snr_ecc_stationary mc fo e d t hr ig isc) = length mc.
Hypothesis snr_circ_evolving_length : ∀ m1 m2 fo d t ns ig isc,
  length m2 = length m1 → length fo = length m1 → length d = length m1 →
  length (snr_circ_evolving m1 m2 fo d t ns ig isc) = length m1.
Hypothesis snr_ecc_evolving_length : ∀ m1 m2 fo d e hr t ns ig isc np,
  length m2 = length m1 → length fo = length m1 → length d = length m1 →
  length e = length m1 →
  length (snr_ecc_evolving m1 m2 fo d e hr t ns ig isc np) = length m1.

(** The selections of one mask from the arrays of a source have one
    length. *)
Lemma length_select_field (self : Source) (arr : list Q) (mask : list bool) :
  length arr = n_sources self → length mask = n_sources self →
  length (np.select arr mask) = np.count mask.
Proof. intros Ha Hm. apply length_select. congruence. Qed.

Lemma stationary_full_spec (self : Source) (t_obs : Q) (which : list bool) :
  same_length self → length which = n_sources self →
  let hreq := map (harmonics_required self) (ecc self) in
  ∃ full,
    get_snr_stationary_full snr_circ_stationary snr_ecc_stationary
      self t_obs which = Ok full ∧
    length full = n_sources self ∧
    (∀ i grp, grp ∈ harmonic_groups →
          harm_match hreq (ind_ecc self which) grp !! i = Some true →
          full !! i =
          ecc_stationary_call snr_ecc_stationary self t_obs
            (harm_match hreq (ind_ecc self which) grp) (grp.2 - 1)%Z
            !! np.rank (harm_match hreq (ind_ecc self which) grp) i) ∧
    (∀ i, i < n_sources self →
          ind_circ self which !! i ≠ Some true →
          (∀ grp, grp ∈ harmonic_groups →
                  harm_match hreq (ind_ecc self which) grp !! i ≠ Some true) →
          full !! i = Some 0%Q).
Proof.
  intros Hwf Hw hreq. unfold get_snr_stationary_full.
  destruct (path_spec self which
              (snr_circ_stationary (np.select (m_c self) (ind_circ self which))
                 (np.select (f_orb self) (ind_circ self which))
                 (np.select (dist self) (ind_circ self which)) t_obs
                 (g self) (sc self))
              (ecc_stationary_call snr_ecc_stationary self t_obs) Hwf Hw)
    as (full & Hfull & Hlen & _ & Hgrp & Hzero).
  - assert (Hlc := length_ind_circ self which Hwf Hw). destruct Hwf.
    rewrite snr_circ_stationary_length;
      rewrite !(length_select_field self); auto.
  - intros mask hr Hm. unfold ecc_stationary_call. destruct Hwf.
    rewrite snr_ecc_stationary_length;
      rewrite !(length_select_field self); auto.
  - exists full. auto.
Qed.

Lemma evolving_full_spec (self : Source) (t_obs : Q) (n_step : Z)
    (which : list bool) :
  same_length self → length which = n_sources self →
  let hreq := map (harmonics_required self) (ecc self) in
  ∃ full,
    get_snr_evolving_full snr_circ_evolving snr_ecc_evolving
      self t_obs n_step which = Ok full ∧
    length full = n_sources self ∧
    (∀ i grp, grp ∈ harmonic_groups →
          harm_match hreq (ind_ecc self which) grp !! i = Some true →
          full !! i =
          ecc_evolving_call snr_ecc_evolving self t_obs n_step
            (harm_match hreq (ind_ecc self which) grp) (grp.2 - 1)%Z
            !! np.rank (harm_match hreq (ind_ecc self which) grp) i) ∧
    (∀ i, i < n_sources self →
          ind_circ self which !! i ≠ Some true →
          (∀ grp, grp ∈ harmonic_groups →
                  harm_match hreq (ind_ecc self which) grp !! i ≠ Some true) →
          full !! i = Some 0%Q).
Proof.
  intros Hwf Hw hreq. unfold get_snr_evolving_full.
  destruct (path_spec self which
              (snr_circ_evolving (np.select (m_1 self) (ind_circ self which))
                 (np.select (m_2 self) (ind_circ self which))
                 (np.select (f_orb self) (ind_circ self which))
                 (np.select (dist self) (ind_circ self which)) t_obs n_step
                 (g self) (sc self))
              (ecc_evolving_call snr_ecc_evolving self t_obs n_step) Hwf Hw)
    as (full & Hfull & Hlen & _ & Hgrp & Hzero).
  - assert (Hlc := length_ind_circ self which Hwf Hw). destruct Hwf.
    rewrite snr_circ_evolving_length;
      rewrite !(length_select_field self); auto.
  - intros mask hr Hm. unfold ecc_evolving_call. destruct Hwf.
    rewrite snr_ecc_evolving_length;
      rewrite !(length_select_field self); auto.
  - exists full. auto.
Qed.

(** Both paths return one value per source of [which_sources]. *)
Lemma stationary_returns (self : Source) (t_obs : Q) (which : list bool) :
  same_length self → length which = n_sources self →
  ∃ full, get_snr_stationary_full snr_circ_stationary snr_ecc_stationary
            self t_obs which = Ok full ∧
          length full = n_sources self ∧
          get_snr_stationary snr_circ_stationary snr_ecc_stationary
            self t_obs (Some which) = Ok (np.select full which) ∧
          length (np.select full which) = np.count which.
Proof.
  intros Hwf Hw.
  destruct (stationary_full_spec self t_obs which Hwf Hw)
    as (full & Hfull & Hlen & _).
  exists full. split; [exact Hfull|]. split; [exact Hlen|].
  unfold get_snr_stationary. rewrite Hfull. simpl.
  split; [reflexivity|]. apply length_select. congruence.
Qed.

Lemma evolving_returns (self : Source) (t_obs : Q) (n_step : Z)
    (which : list bool) :
  same_length self → length which = n_sources self →
  ∃ full, get_snr_evolving_full snr_circ_evolving snr_ecc_evolving
            self t_obs n_step which = Ok full ∧
          length full = n_sources self ∧
          get_snr_evolving snr_circ_evolving snr_ecc_evolving
            self t_obs n_step (Some which) = Ok (np.select full which) ∧
          length (np.select full which) = np.count which.
Proof.
  intros Hwf Hw.
  destruct (evolving_full_spec self t_obs n_step which Hwf Hw)
    as (full & Hfull & Hlen & _).
  exists full. split; [exact Hfull|]. split; [exact Hlen|].
  unfold get_snr_evolving. rewrite Hfull. simpl.
  split; [reflexivity|]. apply length_select. congruence.
Qed.

(** *** Sources that need 10000 harmonics or more *)

Lemma no_group_above (self : Source) (which : list bool) (i : nat) (e : Q) :
  ecc self !! i = Some e → (10000 <= harmonics_required self e)%Z →
  ∀ grp, grp ∈ harmonic_groups →
    harm_match (map (harmonics_required self) (ecc self))
               (ind_ecc self which) grp !! i ≠ Some true.
Proof.
  intros He Hh grp Hgrp Hm.
  apply lookup_harm_match_true in Hm as [(h & Hh' & Hin) _].
  rewrite list_lookup_fmap, He in Hh'. injection Hh' as <-.
  exact (harmonic_groups_none _ grp Hh Hgrp Hin).
Qed.

(** C10.  In [get_snr_stationary] and in [get_snr_evolving], called on a
    mask [which_sources] or on all sources, an eccentric source whose
    required harmonic count is 10000 or more is in the mask of none of the
    four harmonic groups and is not a circular source, so no formula is
    called for it; both functions return without an error, and the entry of
    the source in the returned array is 0. *)
Theorem high_harmonic_count_left_at_zero (self : Source) (t_obs : Q)
    (n_step : Z) (which_sources : option (list bool)) (i : nat) (e : Q) :
  let which := default (np.repeat true (n_sources self)) which_sources in
  same_length self → length which = n_sources self →
  which !! i = Some true → ecc self !! i = Some e →
  (ecc_tol self < e)%Q → (10000 <= harmonics_required self e)%Z →
  (∀ grp, grp ∈ harmonic_groups →
     harm_match (map (harmonics_required self) (ecc self))
                (ind_ecc self which) grp !! i = Some false) ∧
  ind_circ self which !! i = Some false ∧
  (∃ out, get_snr_stationary snr_circ_stationary snr_ecc_stationary
            self t_obs which_sources = Ok out ∧
          length out = np.count which ∧
          out !! np.rank which i = Some 0%Q) ∧
  (∃ out, get_snr_evolving snr_circ_evolving snr_ecc_evolving
            self t_obs n_step which_sources = Ok out ∧
          length out = np.count which ∧
          out !! np.rank which i = Some 0%Q).
Proof.
  intros which Hwf Hw Hwi He Hecc Hh.
  assert (Hs : get_snr_stationary snr_circ_stationary snr_ecc_stationary
                 self t_obs which_sources
               = get_snr_stationary snr_circ_stationary snr_ecc_stationary
                   self t_obs (Some which))
    by (destruct which_sources; reflexivity).
  assert (Hev : get_snr_evolving snr_circ_evolving snr_ecc_evolving
                  self t_obs n_step which_sources
                = get_snr_evolving snr_circ_evolving snr_ecc_evolving
                    self t_obs n_step (Some which))
    by (destruct which_sources; reflexivity).
  rewrite Hs, Hev. clearbody which. clear Hs Hev which_sources.
  assert (Hi : i < n_sources self).
  { rewrite <- Hw. apply lookup_lt_is_Some. eauto. }
  assert (Hnone := no_group_above self which i e He Hh).
  assert (Hcirc : ind_circ self which !! i ≠ Some true).
  { intros Hc. apply lookup_ind_circ_true in Hc as [(e' & He' & Hle) _].
    assert (e' = e) as -> by congruence.
    exact (Qlt_not_le _ _ Hecc Hle). }
  split; [|split; [|split]].
  - intros grp Hgrp. apply lookup_not_true_false; [|exact (Hnone grp Hgrp)].
    rewrite length_harm_match; rewrite ?length_map, ?(len_ecc _ Hwf);
      rewrite length_ind_ecc; auto.
  - apply lookup_not_true_false; [|exact Hcirc].
    rewrite length_ind_circ; auto.
  - destruct (stationary_full_spec self t_obs which Hwf Hw)
      as (full & Hfull & Hlen & _ & Hzero).
    destruct (stationary_returns self t_obs which Hwf Hw)
      as (full' & Hfull' & _ & Hout & Hlo).
    assert (full' = full) as -> by congruence.
    exists (np.select full which). split; [exact Hout|]. split; [exact Hlo|].
    rewrite select_lookup by (auto; congruence).
    apply Hzero; auto.
  - destruct (evolving_full_spec self t_obs n_step which Hwf Hw)
      as (full & Hfull & Hlen & _ & Hzero).
    destruct (evolving_returns self t_obs n_step which Hwf Hw)
      as (full' & Hfull' & _ & Hout & Hlo).
    assert (full' = full) as -> by congruence.
    exists (np.select full which). split; [exact Hout|]. split; [exact Hlo|].
    rewrite select_lookup by (auto; congruence).
    apply Hzero; auto.
Qed.

(** *** Harmonic groups of the eccentric sources *)

(** When the required harmonic count of every eccentric source lies in
    1 .. 9999, every eccentric source is in the mask of
    exactly one of the four groups, the masks hold as many sources between
    them as there are eccentric sources, and the entry of a source of a group
    [(lower, upper)] is, in both paths, the value of the eccentric formula
    called on the sources of that group with the cutoff [upper - 1]. *)
Theorem harmonic_bucketing_in_range (self : Source) (t_obs : Q) (n_step : Z)
    (which : list bool) :
  same_length self → length which = n_sources self →
  (∀ i e, ind_ecc self which !! i = Some true → ecc self !! i = Some e →
          (1 <= harmonics_required self e < 10000)%Z) →
  let hreq := map (harmonics_required self) (ecc self) in
  let ie := ind_ecc self which in
  (∀ i, ie !! i = Some true →
        ∃ grp, grp ∈ harmonic_groups ∧
               harm_match hreq ie grp !! i = Some true ∧
               ∀ grp', grp' ∈ harmonic_groups →
                       harm_match hreq ie grp' !! i = Some true →
                       grp' = grp) ∧
  sum_list (np.count <$> bucket_masks self which) = np.count ie ∧
  ∃ full_s full_e,
    get_snr_stationary_full snr_circ_stationary snr_ecc_stationary
      self t_obs which = Ok full_s ∧
    get_snr_evolving_full snr_circ_evolving snr_ecc_evolving
      self t_obs n_step which = Ok full_e ∧
    ∀ i grp, grp ∈ harmonic_groups →
      harm_match hreq ie grp !! i = Some true →
      full_s !! i =
        ecc_stationary_call snr_ecc_stationary self t_obs
          (harm_match hreq ie grp) (grp.2 - 1)%Z
          !! np.rank (harm_match hreq ie grp) i ∧
      full_e !! i =
        ecc_evolving_call snr_ecc_evolving self t_obs n_step
          (harm_match hreq ie grp) (grp.2 - 1)%Z
          !! np.rank (harm_match hreq ie grp) i.
Proof.
  intros Hwf Hw Hrange hreq ie.
  assert (Hlh : length hreq = length ie).
  { unfold hreq, ie. rewrite length_map, (len_ecc _ Hwf), length_ind_ecc; auto. }
  split; [|split].
  - intros i Hi.
    destruct (lookup_lt_is_Some_2 (ecc self) i) as [e He].
    { rewrite (len_ecc _ Hwf), <- (length_ind_ecc self which Hwf Hw).
      apply lookup_lt_is_Some. eauto. }
    assert (Hh := Hrange i e Hi He).
    apply harmonic_groups_cover in Hh as (grp & Hgrp & Hin).
    assert (Hhreq : hreq !! i = Some (harmonics_required self e)).
    { unfold hreq. rewrite list_lookup_fmap, He. reflexivity. }
    exists grp. split; [exact Hgrp|]. split.
    + apply lookup_harm_match_true. split; [eauto | exact Hi].
    + intros grp' Hgrp' Hm.
      apply lookup_harm_match_true in Hm as [(h & Hh' & Hin') _].
      assert (h = harmonics_required self e) as -> by congruence.
      exact (harmonic_groups_disjoint grp' grp _ Hgrp' Hgrp Hin' Hin).
  - unfold bucket_masks. rewrite <- list_fmap_compose.
    apply (bucket_counts hreq ie Hlh).
    intros i h Hi Hh. unfold hreq in Hh. rewrite list_lookup_fmap in Hh.
    destruct (ecc self !! i) as [e|] eqn:He; [|discriminate].
    injection Hh as <-. exact (Hrange i e Hi He).
  - destruct (stationary_full_spec self t_obs which Hwf Hw)
      as (full_s & Hs & _ & Hgs & _).
    destruct (evolving_full_spec self t_obs n_step which Hwf Hw)
      as (full_e & He & _ & Hge & _).
    exists full_s, full_e. split; [exact Hs|]. split; [exact He|].
    intros i grp Hgrp Hm. split; [apply Hgs | apply Hge]; auto.
Qed.

(** *** The split of [get_snr] *)

Lemma stat_mask_spec (self : Source) (t_obs : Q) :
  same_length self →
  let stat_mask :=
    determine_stationarity (m_c self) (f_orb self) t_obs (ecc self)
                           (stat_tol self) in
  get_source_mask determine_stationarity self PyNone (PyBool true) t_obs
  = Ok stat_mask ∧ length stat_mask = n_sources self.
Proof.
  intros Hwf stat_mask.
  assert (Hlen : length stat_mask = n_sources self).
  { unfold stat_mask. destruct Hwf.
    rewrite determine_stationarity_length; congruence. }
  split; [|exact Hlen]. unfold get_source_mask. simpl.
  fold stat_mask. rewrite logical_and_repeat_true; auto.
Qed.

(** C1.  [get_snr] takes the stationary mask of [get_source_mask] and its
    exact complement as the evolving mask: at every position one of the two
    is [True] and the other [False].  It returns an array with one entry per
    source, in which the entry of a stationary source is the value that
    [get_snr_stationary], called on the stationary mask, has for that source,
    and the entry of an evolving source the value that [get_snr_evolving],
    called on the evolving mask, has for it; the same array is stored in the
    object. *)
Theorem get_snr_scatter (self : Source) (t_obs : Q) (n_step : Z) :
  same_length self →
  ∃ stat_mask snr,
    get_source_mask determine_stationarity self PyNone (PyBool true) t_obs
      = Ok stat_mask ∧
    length stat_mask = n_sources self ∧
    get_snr determine_stationarity snr_circ_stationary snr_ecc_stationary
            snr_circ_evolving snr_ecc_evolving self t_obs n_step
      = Ok (set_snr self (Some snr), snr) ∧
    length snr = n_sources self ∧
    ∀ i, i < n_sources self →
      (stat_mask !! i = Some true ∧
       np.logical_not stat_mask !! i = Some false ∧
       ∃ v x, get_snr_stationary snr_circ_stationary snr_ecc_stationary
                self t_obs (Some stat_mask) = Ok v ∧
              v !! np.rank stat_mask i = Some x ∧ snr !! i = Some x)
      ∨
      (stat_mask !! i = Some false ∧
       np.logical_not stat_mask !! i = Some true ∧
       ∃ v x, get_snr_evolving snr_circ_evolving snr_ecc_evolving
                self t_obs n_step (Some (np.logical_not stat_mask)) = Ok v ∧
              v !! np.rank (np.logical_not stat_mask) i = Some x ∧
              snr !! i = Some x).
Proof.
  intros Hwf.
  destruct (stat_mask_spec self t_obs Hwf) as [Hmask Hlen].
  set (stat_mask := determine_stationarity (m_c self) (f_orb self) t_obs
                      (ecc self) (stat_tol self)) in *.
  set (evol_mask := np.logical_not stat_mask).
  assert (Hlen_e : length evol_mask = n_sources self).
  { unfold evol_mask. rewrite length_logical_not. exact Hlen. }
  destruct (stationary_returns self t_obs stat_mask Hwf Hlen)
    as (full_s & _ & _ & Hs & Hls).
  destruct (evolving_returns self t_obs n_step evol_mask Hwf Hlen_e)
    as (full_e & _ & _ & He & Hle).
  set (vs := np.select full_s stat_mask) in *.
  set (ve := np.select full_e evol_mask) in *.
  (* the two writes *)
  destruct (group_step (np.zeros (n_sources self)) stat_mask vs Hls)
    as (snr1 & Hstep1 & Hlen1 & Hin1 & Hout1).
  { rewrite length_zeros. congruence. }
  destruct (group_step snr1 evol_mask ve Hle)
    as (snr2 & Hstep2 & Hlen2 & Hin2 & Hout2).
  { rewrite Hlen1, length_zeros. congruence. }
  exists stat_mask, snr2. split; [exact Hmask|]. split; [exact Hlen|].
  split; [|split].
  - unfold get_snr. rewrite Hmask. simpl. fold evol_mask.
    assert (H1 : (if np.any stat_mask
                  then v ← get_snr_stationary snr_circ_stationary
                             snr_ecc_stationary self t_obs (Some stat_mask);
                       np.assign (np.zeros (n_sources self)) stat_mask v
                  else Ok (np.zeros (n_sources self))) = Ok snr1).
    { rewrite Hs. simpl. exact Hstep1. }
    rewrite H1. simpl.
    assert (H2 : (if np.any evol_mask
                  then v ← get_snr_evolving snr_circ_evolving snr_ecc_evolving
                             self t_obs n_step (Some evol_mask);
                       np.assign snr1 evol_mask v
                  else Ok snr1) = Ok snr2).
    { rewrite He. simpl. exact Hstep2. }
    rewrite H2. reflexivity.
  - rewrite Hlen2, Hlen1. apply length_zeros.
  - intros i Hi.
    destruct (lookup_lt_is_Some_2 stat_mask i) as [b Hb]; [lia|].
    assert (Hnb : evol_mask !! i = Some (negb b)).
    { unfold evol_mask. rewrite lookup_logical_not, Hb. reflexivity. }
    destruct b; simpl in Hnb.
    + left. split; [exact Hb|]. split; [exact Hnb|].
      destruct (lookup_lt_is_Some_2 vs (np.rank stat_mask i)) as [x Hx].
      { rewrite Hls. apply rank_lt_count, Hb. }
      exists vs, x. split; [exact Hs|]. split; [exact Hx|].
      rewrite Hout2 by congruence. rewrite Hin1 by exact Hb. exact Hx.
    + right. split; [exact Hb|]. split; [exact Hnb|].
      destruct (lookup_lt_is_Some_2 ve (np.rank evol_mask i)) as [x Hx].
      { rewrite Hle. apply rank_lt_count, Hnb. }
      exists ve, x. split; [exact He|]. split; [exact Hx|].
      rewrite Hin2 by exact Hnb. exact Hx.
Qed.

(** *** The arguments of [get_source_mask] *)

(** C7.  A [circular] argument that is not [None], [True] or [False] makes
    [get_source_mask] raise the [ValueError] that names [circular]; with a
    valid [circular], a [stationary] argument that is not one of the three
    makes it raise the [ValueError] that names [stationary]; and for each of
    the nine valid combinations it returns a mask, with one entry per source
    when the arrays of the object have one length. *)
Theorem get_source_mask_tri_state (self : Source) (circular stationary : pyval)
    (t_obs : Q) :
  (¬ tri_state circular →
   get_source_mask determine_stationarity self circular stationary t_obs
   = Raise (ValueError "`circular` must be None, True or False")) ∧
  (tri_state circular → ¬ tri_state stationary →
   get_source_mask determine_stationarity self circular stationary t_obs
   = Raise (ValueError "`stationary` must be None, True or False")) ∧
  (tri_state circular → tri_state stationary →
   ∃ mask,
     get_source_mask determine_stationarity self circular stationary t_obs
     = Ok mask ∧
     (same_length self → length mask = n_sources self)).
Proof.
  unfold tri_state. split; [|split].
  - intros Hc. unfold get_source_mask.
    destruct circular as [|[]| | | | |]; try reflexivity;
      exfalso; apply Hc; auto.
  - intros Hc Hs. unfold get_source_mask.
    destruct Hc as [->|[->| ->]];
      (destruct stationary as [|[]| | | | |]; try reflexivity;
       exfalso; apply Hs; auto).
  - intros Hc Hs. unfold get_source_mask.
    assert (Hds : same_length self →
              length (determine_stationarity (m_c self) (f_orb self) t_obs
                        (ecc self) (stat_tol self)) = n_sources self).
    { intros Hwf. destruct Hwf.
      rewrite determine_stationarity_length; congruence. }
    destruct Hc as [->|[->| ->]]; destruct Hs as [->|[->| ->]]; simpl;
      eexists; (split; [reflexivity|]); intros Hwf;
      rewrite length_logical_and;
      unfold np.repeat; unfold np.logical_not;
      rewrite ?length_map, ?length_replicate, ?(Hds Hwf), ?(len_ecc _ Hwf);
      reflexivity.
Qed.

End DispatcherProps.

(** ** Linear interpolation *)

Lemma last_cons_cons {A : Type} (x y : A) (l : list A) (d : A) :
  List.last (x :: y :: l) d = List.last (y :: l) d.
Proof. reflexivity. Qed.

Lemma last_indep {A : Type} (x : A) (l : list A) (d d' : A) :
  List.last (x :: l) d = List.last (x :: l) d'.
Proof.
  revert x. induction l as [|y l IH]; intros x; [reflexivity|].
  rewrite !last_cons_cons. apply IH.
Qed.

Lemma last_cons_default {A : Type} (x : A) (l : list A) (d : A) :
  List.last (x :: l) d = List.last l x.
Proof.
  destruct l as [|y l]; [reflexivity|].
  rewrite last_cons_cons. apply last_indep.
Qed.

Lemma sorted_le_last (x_lo : Q) (x : list Q) :
  Sorted Qlt (x_lo :: x) → (x_lo <= List.last x x_lo)%Q.
Proof.
  revert x_lo. induction x as [|x_hi x IH]; intros x_lo Hs.
  - simpl. apply Qle_refl.
  - apply Sorted_inv in Hs as [Hs Hhd]. apply HdRel_inv in Hhd.
    specialize (IH x_hi Hs).
    rewrite (last_indep x_hi x x_lo x_hi).
    destruct x as [|x2 x].
    + simpl. apply Qlt_le_weak, Hhd.
    + rewrite last_cons_cons.
      eapply Qle_trans; [apply Qlt_le_weak, Hhd | exact IH].
Qed.

(** One segment: between [x_lo] and [x_hi] the line stays between [y_lo] and
    [y_hi] and does not fall. *)
Lemma segment_bounds (x_lo x_hi y_lo y_hi t : Q) :
  (x_lo < x_hi)%Q → (y_lo <= y_hi)%Q → (x_lo <= t)%Q → (t <= x_hi)%Q →
  (y_lo <= (y_hi - y_lo) / (x_hi - x_lo) * (t - x_lo) + y_lo <= y_hi)%Q.
Proof.
  intros Hx Hy Hlo Hhi.
  set (s := ((y_hi - y_lo) / (x_hi - x_lo))%Q).
  assert (Hd : (0 < x_hi - x_lo)%Q) by lra.
  assert (Hs0 : (0 <= s)%Q).
  { unfold s. apply Qle_shift_div_l; [exact Hd | lra]. }
  assert (Hs1 : (s * (x_hi - x_lo) == y_hi - y_lo)%Q).
  { unfold s. field. lra. }
  assert (H1 : (0 <= s * (t - x_lo))%Q).
  { apply Qmult_le_0_compat; [exact Hs0 | lra]. }
  assert (H2 : (s * (t - x_lo) <= s * (x_hi - x_lo))%Q).
  { rewrite !(Qmult_comm s). apply Qmult_le_compat_r; [lra | exact Hs0]. }
  split; lra.
Qed.


(** Inside the grid the interpolant stays between the first and the last
    value. *)
Lemma linear_segment_bounds (x y : list Q) :
  ∀ x_lo y_lo x_new,
  length x = length y →
  Sorted Qlt (x_lo :: x) → Sorted Qle (y_lo :: y) →
  (x_lo <= x_new)%Q → (x_new <= List.last x x_lo)%Q →
  (y_lo <= linear_segment x_lo y_lo x y x_new <= List.last y y_lo)%Q.
Proof.
  revert y. induction x as [|x_hi x IH]; intros [|y_hi y] x_lo y_lo x_new
    Hlen Hsx Hsy Hlo Hhi; simpl in Hlen; try discriminate.
  - simpl. split; apply Qle_refl.
  - apply Sorted_inv in Hsx as [Hsx Hhx]. apply HdRel_inv in Hhx.
    apply Sorted_inv in Hsy as [Hsy Hhy]. apply HdRel_inv in Hhy.
    assert (Hylast : (y_hi <= List.last (y_hi :: y) y_lo)%Q).
    { rewrite (last_indep y_hi y y_lo y_hi).
      clear -Hsy. revert y_hi Hsy.
      induction y as [|y2 y IHy]; intros y_hi Hsy; [apply Qle_refl|].
      rewrite last_cons_cons.
      apply Sorted_inv in Hsy as [Hsy Hhd]. apply HdRel_inv in Hhd.
      rewrite (last_indep y2 y y_hi y2).
      eapply Qle_trans; [exact Hhd | apply IHy, Hsy]. }
    cbn [linear_segment].
    destruct (Qleb x_new x_hi) eqn:Hle; simpl.
    + apply Qleb_le in Hle.
      destruct (segment_bounds x_lo x_hi y_lo y_hi x_new Hhx Hhy Hlo Hle).
      split; [assumption|]. eapply Qle_trans; eassumption.
    + assert (Hgt : (x_hi < x_new)%Q).
      { apply Qnot_le_lt. intros H. apply Qleb_le in H. congruence. }
      destruct x as [|x2 x].
      * (* the query is past the last point of the grid *)
        simpl in Hhi. exfalso. apply (Qlt_not_le _ _ Hgt Hhi).
      * rewrite bool_decide_eq_false_2 by discriminate.
        destruct y as [|y2 y]; [discriminate|].
        destruct (IH (y2 :: y) x_hi y_hi x_new) as [H1 H2]; auto.
        -- apply Qlt_le_weak, Hgt.
        -- rewrite (last_indep x2 x x_hi x_lo). exact Hhi.
        -- split; [eapply Qle_trans; eassumption|].
           rewrite (last_indep y2 y y_lo y_hi). exact H2.
Qed.


(** ** The table of required harmonics *)

(** The [while] loop returns when the row is long enough; it only adds
    harmonics, and stops at the last harmonic of the table. *)
Lemma add_harmonics_ok (rest : list Q) :
  ∀ (lim : Q) (n h : Z) (total : Q),
  (n - h <= Z.of_nat (length rest))%Z →
  ∃ h', add_harmonics rest lim n h total = Ok h' ∧
        (h <= h')%Z ∧ (h' <= Z.max h n)%Z.
Proof.
  induction rest as [|g_n rest IH]; intros lim n h total Hlen.
  - cbn [add_harmonics].
    destruct (Qltb total lim && (h <? n)%Z) eqn:Hc.
    + apply andb_true_iff in Hc as [_ Hc]. apply Z.ltb_lt in Hc.
      simpl in Hlen. lia.
    + exists h. split; [reflexivity|]. lia.
  - cbn [add_harmonics].
    destruct (Qltb total lim && (h <? n)%Z) eqn:Hc.
    + apply andb_true_iff in Hc as [_ Hc]. apply Z.ltb_lt in Hc.
      destruct (IH lim n (h + 1)%Z (total + g_n)%Q) as (h' & Hh' & H1 & H2).
      { simpl in Hlen. lia. }
      exists h'. split; [exact Hh'|]. lia.
    + exists h. split; [reflexivity|]. lia.
Qed.

Lemma index_ok {A : Type} (l : list A) (i : nat) (x : A) :
  l !! i = Some x → index l i = Ok x.
Proof. intros H. unfold index. rewrite H. reflexivity. Qed.

Section HarmonicsLoop.

Variable gw_lum_tol : Q.
Variable g_vals : list (list Q).
Variable f_vals : list Q.
Variable len_n_range : Z.
Hypothesis rows_long : ∀ i row,
  g_vals !! i = Some row → (len_n_range <= Z.of_nat (length row))%Z.

(** The loop over the grid returns, keeps the base case 2 at index 0, and
    leaves the entries that it has filled in increasing order and at most
    [max(2, len(n_range))]. *)
Lemma harmonics_loop_spec (k : nat) :
  ∀ (s : nat) (hn : list Z),
  1 ≤ s → s + k ≤ length hn → s + k ≤ length g_vals →
  s + k ≤ length f_vals →
  hn !! 0 = Some 2%Z →
  (∀ i j x y, i ≤ j < s → hn !! i = Some x → hn !! j = Some y →
              (x <= y)%Z) →
  (∀ j y, j < s → hn !! j = Some y → (y <= Z.max 2 len_n_range)%Z) →
  ∃ hn', harmonics_loop gw_lum_tol g_vals f_vals len_n_range (seq s k) hn
         = Ok hn' ∧
    length hn' = length hn ∧
    hn' !! 0 = Some 2%Z ∧
    (∀ i j x y, i ≤ j < s + k → hn' !! i = Some x → hn' !! j = Some y →
                (x <= y)%Z) ∧
    (∀ j y, j < s + k → hn' !! j = Some y → (y <= Z.max 2 len_n_range)%Z).
Proof.
  induction k as [|k IH]; intros s hn Hs Hlh Hlg Hlf H0 Hmono Hmax.
  - exists hn. simpl. split; [reflexivity|]. split; [reflexivity|].
    split; [exact H0|]. rewrite Nat.add_0_r. auto.
  - cbn [seq harmonics_loop].
    destruct (lookup_lt_is_Some_2 hn (s - 1)) as [prev Hprev]; [lia|].
    destruct (lookup_lt_is_Some_2 g_vals s) as [row Hrow]; [lia|].
    destruct (lookup_lt_is_Some_2 f_vals s) as [f_val Hf]; [lia|].
    rewrite (index_ok _ _ _ Hprev), (index_ok _ _ _ Hrow),
      (index_ok _ _ _ Hf). simpl.
    assert (Hprev2 : (2 <= prev)%Z).
    { apply (Hmono 0 (s - 1) 2%Z prev); auto. lia. }
    assert (Hprevmax : (prev <= Z.max 2 len_n_range)%Z).
    { apply (Hmax (s - 1)); auto. lia. }
    destruct (add_harmonics_ok (drop (Z.to_nat prev) row)
                ((1 - gw_lum_tol) * f_val)%Q len_n_range prev
                (Qsum (take (Z.to_nat prev) row)))
      as (h & Hh & Hge & Hle).
    { rewrite length_drop. specialize (rows_long s row Hrow). lia. }
    rewrite Hh. simpl.
    assert (Hsh : <[s := h]> hn !! s = Some h).
    { apply list_lookup_insert_eq. lia. }
    destruct (IH (S s) (<[s := h]> hn)) as (hn' & Hrun & Hlen & H0' & Hm' & Hx').
    + lia.
    + rewrite length_insert. lia.
    + lia.
    + lia.
    + rewrite list_lookup_insert_ne by lia. exact H0.
    + intros i j x y Hij Hi Hj.
      destruct (decide (j = s)) as [->|Hjs].
      * rewrite Hsh in Hj. injection Hj as <-.
        destruct (decide (i = s)) as [->|His].
        -- rewrite Hsh in Hi. injection Hi as <-. lia.
        -- rewrite list_lookup_insert_ne in Hi by lia.
           assert (x <= prev)%Z; [|lia].
           apply (Hmono i (s - 1) x prev); auto. lia.
      * rewrite list_lookup_insert_ne in Hj by lia.
        rewrite list_lookup_insert_ne in Hi by lia.
        apply (Hmono i j x y); auto. lia.
    + intros j y Hj Hy.
      destruct (decide (j = s)) as [->|Hjs].
      * rewrite Hsh in Hy. injection Hy as <-. lia.
      * rewrite list_lookup_insert_ne in Hy by lia.
        apply (Hmax j y); auto. lia.
    + exists hn'. split; [exact Hrun|]. rewrite length_insert in Hlen.
      split; [exact Hlen|]. split; [exact H0'|].
      replace (s + S k) with (S s + k) by lia. auto.
Qed.

End HarmonicsLoop.

(** The array [harmonics_needed]: it is built without an error from a table
    of the right shape, has one entry per point of the grid, starts at 2,
    does not fall along the grid and stays at most [max(2, n_max)]. *)
Lemma harmonics_needed_table_spec (peters_f : Q → Q) (gw_lum_tol : Q)
    (lum_info : lum_table) :
  table_ok lum_info →
  ∃ hn, harmonics_needed_table peters_f gw_lum_tol lum_info = Ok hn ∧
    length hn = length (e_range lum_info) ∧
    hn !! 0 = Some 2%Z ∧
    (∀ i j x y, i ≤ j → hn !! i = Some x → hn !! j = Some y → (x <= y)%Z) ∧
    (∀ j y, hn !! j = Some y → (2 <= y <= Z.max 2 (n_max lum_info))%Z).
Proof.
  intros Hok. unfold harmonics_needed_table.
  assert (Hlen := ok_len _ Hok).
  set (e_len := length (e_range lum_info)) in *.
  rewrite decide_True by lia. simpl.
  assert (Hn : Z.max 0 (n_max lum_info) = n_max lum_info).
  { assert (H := ok_n_max _ Hok). lia. }
  rewrite Hn.
  destruct (harmonics_loop_spec gw_lum_tol (g_vals lum_info)
              (map peters_f (e_range lum_info)) (n_max lum_info))
    with (k := e_len - 1) (s := 1) (hn := <[0 := 2%Z]> (replicate e_len 0%Z))
    as (hn & Hrun & Hl & H0 & Hmono & Hmax).
  - intros i row Hrow. assert (Hc := ok_cols _ Hok).
    rewrite Forall_lookup in Hc. rewrite (Hc i row Hrow). lia.
  - lia.
  - rewrite length_insert, length_replicate. lia.
  - rewrite (ok_rows _ Hok). fold e_len. lia.
  - rewrite length_map. fold e_len. lia.
  - apply list_lookup_insert_eq. rewrite length_replicate. lia.
  - intros i j x y Hij Hi Hj. assert (i = 0) as -> by lia.
    assert (j = 0) as -> by lia. assert (x = y) by congruence. lia.
  - intros j y Hj Hy. assert (j = 0) as -> by lia.
    rewrite list_lookup_insert_eq in Hy by (rewrite length_replicate; lia).
    injection Hy as <-. lia.
  - rewrite length_insert, length_replicate in Hl.
    exists hn. split; [exact Hrun|]. split; [exact Hl|]. split; [exact H0|].
    assert (Hin : ∀ j y, hn !! j = Some y → j < 1 + (e_len - 1)).
    { intros j y Hy. apply lookup_lt_Some in Hy. lia. }
    split.
    + intros i j x y Hij Hi Hj. apply (Hmono i j x y); auto.
      specialize (Hin j y Hj). lia.
    + intros j y Hy. split.
      * apply (Hmono 0 j 2%Z y); auto. specialize (Hin j y Hy). lia.
      * apply (Hmax j y); eauto.
Qed.

(** *** The interpolant and its fill values *)

Lemma Qltb_false_le (x y : Q) : Qltb x y = false → (y <= x)%Q.
Proof. apply Qltb_ge. Qed.

Lemma interp1d_ok (x_0 : Q) (x' : list Q) (y_0 : Q) (y' : list Q)
    (fill_value : Q * Q) :
  length x' = length y' →
  interp1d (x_0 :: x') (y_0 :: y') fill_value =
  Ok (λ x_new,
        if Qltb x_new x_0 then fill_value.1
        else if Qltb (List.last x' x_0) x_new then fill_value.2
        else linear_segment x_0 y_0 x' y' x_new).
Proof. intros H. unfold interp1d. rewrite decide_True by exact H. reflexivity. Qed.


Lemma Zmax_arr_ge (arr : list Z) (i : nat) (y : Z) :
  arr !! i = Some y → (y <= Zmax_arr arr)%Z.
Proof.
  destruct arr as [|x arr]; [discriminate|]. simpl.
  revert x i. induction arr as [|z arr IH]; intros x i Hi.
  - destruct i; simpl in *; [injection Hi as <-; lia | discriminate].
  - destruct i as [|i]; simpl in Hi.
    + injection Hi as <-. simpl.
      specialize (IH x 0 eq_refl). lia.
    + destruct i as [|i]; simpl in Hi.
      * injection Hi as <-. simpl. lia.
      * specialize (IH x (S i) Hi). simpl. lia.
Qed.

Lemma Zmax_arr_in (arr : list Z) :
  arr ≠ [] → ∃ i, arr !! i = Some (Zmax_arr arr).
Proof.
  destruct arr as [|x arr]; [congruence|]. intros _. simpl.
  induction arr as [|z arr IH]; simpl.
  - exists 0. reflexivity.
  - destruct IH as [i Hi].
    destruct (Z.max_spec z (foldr Z.max x arr)) as [[_ ->]|[_ ->]].
    + destruct i as [|i]; [|exists (S (S i)); exact Hi].
      exists 0. exact Hi.
    + exists 1. reflexivity.
Qed.

Lemma sorted_of_lookups {A : Type} (R : A → A → Prop) (l : list A) :
  (∀ i x y, l !! i = Some x → l !! S i = Some y → R x y) → Sorted R l.
Proof.
  induction l as [|a l IH]; intros H; constructor.
  - apply IH. intros i x y Hx Hy. apply (H (S i) x y); auto.
  - destruct l as [|b l]; constructor. apply (H 0 a b); reflexivity.
Qed.

Lemma last_map {A B : Type} (f : A → B) (l : list A) (d : A) :
  List.last (map f l) (f d) = f (List.last l d).
Proof.
  induction l as [|x l IH]; [reflexivity|].
  destruct l as [|y l]; [reflexivity|].
  change (map f (x :: y :: l)) with (f x :: map f (y :: l)).
  change (map f (y :: l)) with (f y :: map f l) in *.
  rewrite !last_cons_cons. exact IH.
Qed.

Lemma last_lookup_some {A : Type} (l : list A) (d : A) :
  l ≠ [] → l !! (length l - 1) = Some (List.last l d).
Proof.
  induction l as [|x l IH]; [congruence|]. intros _.
  destruct l as [|y l]; [reflexivity|].
  rewrite last_cons_cons. simpl length. simpl in IH.
  replace (S (S (length l)) - 1) with (S (length l)) by lia.
  simpl. rewrite Nat.sub_0_r in IH. apply IH. discriminate.
Qed.

(** *** [argmax] and [mapM] *)

Lemma argmax_from_lt (row : list Q) :
  ∀ best_i best i, best_i < i → argmax_from best_i best i row < i + length row.
Proof.
  induction row as [|v row IH]; intros best_i best i Hi; simpl.
  - lia.
  - destruct (Qltb best v).
    + specialize (IH i v (S i)). lia.
    + specialize (IH best_i best (S i)). lia.
Qed.

Lemma argmax_ok (row : list Q) :
  row ≠ [] → ∃ k, argmax row = Ok k ∧ k < length row.
Proof.
  destruct row as [|v row]; [congruence|]. intros _. simpl.
  eexists. split; [reflexivity|].
  assert (H := argmax_from_lt row 0 v 1). lia.
Qed.

Lemma mapM_ok {A B : Type} (f : A → result B) (P : B → Prop) (l : list A) :
  Forall (λ x, ∃ y, f x = Ok y ∧ P y) l →
  ∃ ys, mapM f l = Ok ys ∧ length ys = length l ∧ Forall P ys.
Proof.
  induction 1 as [|x l (y & Hy & HP) _ (ys & Hys & Hlen & HPs)]; simpl.
  - exists []. auto.
  - exists (y :: ys). rewrite Hy. simpl. rewrite Hys. simpl.
    split; [reflexivity|]. split; [lia | constructor; auto].
Qed.

(** *** The two functions of eccentricity *)

(** From a table of the right shape [harmonics_functions] returns, and the
    function of required harmonics is the ceiling of the interpolant of the
    array [harmonics_needed], with 2 as the fill value below the grid and the
    largest entry of the array as the fill value above. *)
Lemma harmonics_functions_spec (peters_f : Q → Q) (gw_lum_tol : Q)
    (lum_info : lum_table) :
  table_ok lum_info →
  ∃ hn x_0 x' hn' dh,
    harmonics_needed_table peters_f gw_lum_tol lum_info = Ok hn ∧
    e_range lum_info = x_0 :: x' ∧ hn = 2%Z :: hn' ∧
    length x' = length hn' ∧
    harmonics_functions peters_f gw_lum_tol lum_info =
    Ok (λ e, ceil_int
               (if Qltb e x_0 then 2%Q
                else if Qltb (List.last x' x_0) e
                     then inject_Z (Zmax_arr hn)
                     else linear_segment x_0 (inject_Z 2) x'
                            (map inject_Z hn') e),
        dh).
Proof.
  intros Hok.
  destruct (harmonics_needed_table_spec peters_f gw_lum_tol lum_info Hok)
    as (hn & Hhn & Hlen & H0 & _ & _).
  assert (Hl := ok_len _ Hok). assert (Hrows := ok_rows _ Hok).
  assert (Hcols := ok_cols _ Hok). assert (Hn := ok_n_max _ Hok).
  unfold harmonics_functions. rewrite Hhn. simpl.
  destruct (e_range lum_info) as [|x_0 x'] eqn:Hx; [simpl in Hl; lia|].
  destruct hn as [|h0 hn']; [discriminate|].
  simpl in H0. injection H0 as ->. simpl in Hlen.
  destruct (mapM_ok argmax (λ k, (Z.of_nat k < n_max lum_info)%Z)
              (g_vals lum_info)) as (ks & Hks & Hlks & HPks).
  { eapply Forall_impl; [exact Hcols|]. intros row Hrow. simpl in Hrow.
    destruct (argmax_ok row) as (k & Hk & Hlt).
    - intros ->. simpl in Hrow. lia.
    - exists k. split; [exact Hk|]. lia. }
  destruct (mapM_ok (n_range_at (n_max lum_info)) (λ _, True) ks)
    as (ds & Hds & Hlds & _).
  { eapply Forall_impl; [exact HPks|]. intros k Hk. simpl in Hk.
    unfold n_range_at. rewrite decide_True by exact Hk. eauto. }
  destruct ds as [|d0 ds'].
  { simpl in Hlds. rewrite <- Hlds, Hrows in Hlks. simpl in Hlks. lia. }
  exists (2%Z :: hn'), x_0, x', hn'. eexists.
  split; [reflexivity|]. split; [reflexivity|]. split; [reflexivity|].
  split; [lia|].
  change (map inject_Z (2%Z :: hn')) with (inject_Z 2 :: map inject_Z hn').
  rewrite interp1d_ok by (rewrite length_map; lia).
  cbn [mbind result_bind rbind]. rewrite Hks.
  cbn [mbind result_bind rbind]. rewrite Hds.
  cbn [mbind result_bind rbind].
  change (map inject_Z (d0 :: ds')) with (inject_Z d0 :: map inject_Z ds').
  rewrite interp1d_ok.
  - reflexivity.
  - rewrite length_map. simpl in Hlds. rewrite Hlks, Hrows in Hlds.
    simpl in Hlds. lia.
Qed.

(** What the interpolation needs of the array [harmonics_needed]: its
    entries do not fall, the last one is at most the largest, and the largest
    is at most [max(2, n_max)]. *)
Lemma harmonics_needed_facts (peters_f : Q → Q) (gw_lum_tol : Q)
    (lum_info : lum_table) (hn' : list Z) :
  table_ok lum_info →
  harmonics_needed_table peters_f gw_lum_tol lum_info = Ok (2%Z :: hn') →
  Sorted Qle (inject_Z 2 :: map inject_Z hn') ∧
  (List.last (map inject_Z hn') (inject_Z 2)
   <= inject_Z (Zmax_arr (2%Z :: hn')))%Q ∧
  (2 <= Zmax_arr (2%Z :: hn') <= Z.max 2 (n_max lum_info))%Z.
Proof.
  intros Hok Hhn.
  destruct (harmonics_needed_table_spec peters_f gw_lum_tol lum_info Hok)
    as (hn2 & Hhn2 & _ & _ & Hmono & Hbound).
  assert (hn2 = 2%Z :: hn') as -> by congruence.
  split; [|split].
  - change (Sorted Qle (map inject_Z (2%Z :: hn'))).
    apply sorted_of_lookups. intros i x y Hi Hj.
    rewrite list_lookup_fmap in Hi, Hj.
    destruct ((2%Z :: hn') !! i) as [h1|] eqn:Ha; [|discriminate].
    destruct ((2%Z :: hn') !! S i) as [h2|] eqn:Hb; [|discriminate].
    injection Hi as <-. injection Hj as <-.
    rewrite <- Zle_Qle. apply (Hmono i (S i) h1 h2); auto.
  - rewrite last_map. rewrite <- Zle_Qle.
    destruct hn' as [|h1 hn''].
    + simpl. lia.
    + assert (Hlast : (h1 :: hn'') !! (length (h1 :: hn'') - 1)
                      = Some (List.last (h1 :: hn'') 2%Z))
        by (apply last_lookup_some; discriminate).
      exact (Zmax_arr_ge (2%Z :: h1 :: hn'') (S (length (h1 :: hn'') - 1))
               _ Hlast).
  - destruct (Zmax_arr_in (2%Z :: hn')) as [j Hj]; [discriminate|].
    apply (Hbound j _ Hj).
Qed.

(** *** The table of required harmonics in any arithmetic

    What the construction of [harmonics_needed] gives by itself, whatever
    the sums and the comparisons of the floats give. *)


Section GenericLoop.

Context {F : Type} (ops : fp.arith F).
Variable gw_lum_tol : F.
Variable g_vals : list (list F).
Variable f_vals : list F.
Variable len_n_range : Z.
Hypothesis rows_long : ∀ i row,
  g_vals !! i = Some row → (len_n_range <= Z.of_nat (length row))%Z.


End GenericLoop.






Lemma create_harmonics_functions_run (peters_f : Q → Q)
    (lum_info : lum_table) (self : Source) (log : list call) hr dh :
  harmonics_functions peters_f (_gw_lum_tol self) lum_info = Ok (hr, dh) →
  create_harmonics_functions peters_f lum_info self log =
  (Ok (set_harmonics self hr dh),
   log ++ [LoadResource "harmonics.npz"] ++ [UtilsPetersF]).
Proof.
  intros H. unfold create_harmonics_functions, called, lift.
  unfold mbind, M_bind, mret, M_ret. rewrite H. simpl.
  rewrite <- app_assoc. reflexivity.
Qed.

Section HarmonicModel.

Variable peters_f : Q → Q.
Variable lum_info : lum_table.
Hypothesis lum_info_ok : table_ok lum_info.


(** The stored [harmonics_required] is at least 2 and at most
    [max(2, n_max)] everywhere. *)
Lemma harmonics_required_bounds (self : Source) (log : list call) :
  ∃ self' log',
    create_harmonics_functions peters_f lum_info self log = (Ok self', log') ∧
    ∀ e, (2 <= harmonics_required self' e <= Z.max 2 (n_max lum_info))%Z.
Proof.
  destruct (harmonics_functions_spec peters_f (_gw_lum_tol self) lum_info
              lum_info_ok)
    as (hn & x_0 & x' & hn' & dh & Hhn & Hx & -> & Hlen & Hfs).
  destruct (harmonics_needed_facts peters_f (_gw_lum_tol self) lum_info hn'
              lum_info_ok Hhn) as (Hsy & Hhi & Hmax).
  eexists. eexists. split.
  { apply create_harmonics_functions_run. exact Hfs. }
  intros e. cbn [set_harmonics harmonics_required]. unfold ceil_int.
  assert (Hsx : Sorted Qlt (x_0 :: x')).
  { rewrite <- Hx. apply (ok_sorted _ lum_info_ok). }
  set (v := if Qltb e x_0 then 2%Q
            else if Qltb (List.last x' x_0) e
                 then inject_Z (Zmax_arr (2%Z :: hn'))
                 else linear_segment x_0 (inject_Z 2) x'
                        (map inject_Z hn') e).
  assert (Hv : (inject_Z 2 <= v <= inject_Z (Zmax_arr (2%Z :: hn')))%Q).
  { unfold v. destruct (Qltb e x_0) eqn:H1.
    - split; [apply Qle_refl|].
      change (inject_Z 2 <= inject_Z (Zmax_arr (2%Z :: hn')))%Q.
      rewrite <- Zle_Qle. lia.
    - apply Qltb_false_le in H1.
      destruct (Qltb (List.last x' x_0) e) eqn:H2.
      + split; [|apply Qle_refl]. rewrite <- Zle_Qle. lia.
      + apply Qltb_false_le in H2.
        destruct (linear_segment_bounds x' (map inject_Z hn') x_0
                    (inject_Z 2) e) as [Hlo Hup]; auto.
        * rewrite length_map. exact Hlen.
        * split; [exact Hlo|]. eapply Qle_trans; eassumption. }
  destruct Hv as [Hlo Hup]. split.
  - rewrite <- (Qceiling_Z 2). apply Qceiling_resp_le, Hlo.
  - apply Qceiling_resp_le in Hup. rewrite Qceiling_Z in Hup. lia.
Qed.

(** C4.  For every tolerance, the [harmonics_required] that
    [create_harmonics_functions] stores returns 2 at eccentricity 0 and at
    every eccentricity below the first point of the grid, and at every
    eccentricity above the last point of the grid it returns the largest
    entry of the array [harmonics_needed]. *)
Theorem harmonics_required_boundaries (self : Source) (log : list call) :
  ∃ self' log' hn e_min e_max,
    create_harmonics_functions peters_f lum_info self log = (Ok self', log') ∧
    harmonics_needed_table peters_f (_gw_lum_tol self) lum_info = Ok hn ∧
    e_range lum_info !! 0 = Some e_min ∧
    List.last (e_range lum_info) 0%Q = e_max ∧
    harmonics_required self' 0%Q = 2%Z ∧
    (∀ e, (e < e_min)%Q → harmonics_required self' e = 2%Z) ∧
    (∀ e, (e_max < e)%Q → harmonics_required self' e = Zmax_arr hn) ∧
    (∀ j y, hn !! j = Some y → (y <= Zmax_arr hn)%Z) ∧
    (∃ j, hn !! j = Some (Zmax_arr hn)).
Proof.
  destruct (harmonics_functions_spec peters_f (_gw_lum_tol self) lum_info
              lum_info_ok)
    as (hn & x_0 & x' & hn' & dh & Hhn & Hx & -> & Hlen & Hfs).
  assert (Hsx : Sorted Qlt (x_0 :: x')).
  { rewrite <- Hx. apply (ok_sorted _ lum_info_ok). }
  assert (Hx0 := sorted_le_last x_0 x' Hsx).
  assert (Hnonneg : (0 <= x_0)%Q).
  { assert (H := ok_ecc _ lum_info_ok). rewrite Hx in H.
    apply Forall_cons in H as [[H _] _]. exact H. }
  exists (set_harmonics self
            (λ e, ceil_int
               (if Qltb e x_0 then 2%Q
                else if Qltb (List.last x' x_0) e
                     then inject_Z (Zmax_arr (2%Z :: hn'))
                     else linear_segment x_0 (inject_Z 2) x'
                            (map inject_Z hn') e)) dh).
  eexists. exists (2%Z :: hn'), x_0, (List.last x' x_0).
  split; [apply create_harmonics_functions_run; exact Hfs|].
  split; [exact Hhn|]. rewrite Hx. split; [reflexivity|].
  split; [apply last_cons_default|].
  cbn [set_harmonics harmonics_required]. unfold ceil_int.
  split; [|split; [|split; [|split]]].
  - (* eccentricity 0 *)
    destruct (Qltb 0 x_0) eqn:H0; [reflexivity|].
    apply Qltb_false_le in H0.
    assert (Hlast : Qltb (List.last x' x_0) 0 = false).
    { apply Qltb_ge. lra. }
    rewrite Hlast.
    destruct x' as [|x_hi x'']; [reflexivity|].
    destruct hn' as [|h_hi hn'']; [discriminate|].
    apply Sorted_inv in Hsx as [_ Hhd]. apply HdRel_inv in Hhd.
    cbn [map linear_segment].
    assert (Hle : Qleb 0 x_hi = true) by (apply Qleb_le; lra).
    rewrite Hle. cbn [orb].
    set (slope := ((inject_Z h_hi - inject_Z 2) / (x_hi - x_0))%Q).
    assert (Heq : (slope * (0 - x_0) + inject_Z 2 == inject_Z 2)%Q).
    { assert (Hz : (0 - x_0 == 0)%Q) by lra. rewrite Hz. ring. }
    rewrite Heq. apply Qceiling_Z.
  - (* below the grid *)
    intros e He. apply Qltb_lt in He. rewrite He. reflexivity.
  - (* above the grid *)
    intros e He.
    assert (H1 : Qltb e x_0 = false) by (apply Qltb_ge; lra).
    apply Qltb_lt in He. rewrite H1, He. apply Qceiling_Z.
  - intros j y Hy. exact (Zmax_arr_ge _ j y Hy).
  - apply Zmax_arr_in. discriminate.
Qed.

End HarmonicModel.


(** ** The eccentricity classifier *)











Section Classifier.

Variable peters_g : Z → Q → Q.
Variable peters_f : Q → Q.


End Classifier.

(** ** The sensitivity curve *)

Section SensitivityCurve.

Variable frequency_range : list Q.
Variable power_spectral_density : list Q → gmap string pyval → list Q.
Variable py_eq : pyval → pyval → bool.

(** [set_sc] with interpolation: one call of [lisa.power_spectral_density]
    with the defaults updated by [_sc_params], and the interpolant of its
    values as the new curve. *)
Lemma set_sc_run (self : Source) (log : list call) (curve : Q → Q) :
  interpolate_sc self = true →
  interp1d frequency_range
    (power_spectral_density frequency_range (_sc_params self ∪ default_params))
    (sc_fill_value, sc_fill_value) = Ok curve →
  set_sc frequency_range power_spectral_density self log =
  (Ok (set_sc_field self (Some (λ f, curve f))),
   log ++ [LisaPowerSpectralDensity (_sc_params self ∪ default_params)]).
Proof.
  intros Hi Hc. unfold set_sc. rewrite Hi.
  unfold called, lift, mbind, M_bind, mret, M_ret. rewrite Hc. reflexivity.
Qed.


(** C9, as amended.  [update_sc_params] with parameters equal to the stored ones changes
    nothing: the object, with its stored parameters and its curve, is the
    same and nothing is computed.  With parameters that differ it stores them
    and runs [set_sc] on the new state, which, when the curve is
    interpolated, calls [lisa.power_spectral_density] once with the new
    parameters over the defaults and stores the interpolant of the result;
    so [lisa.power_spectral_density] is called exactly when the parameters
    differ. *)
Theorem update_sc_params_rebuilds_iff_changed (self : Source)
    (sc_params : gmap string pyval) (log : list call) :
  (dict_eq py_eq sc_params (_sc_params self) = true →
   update_sc_params frequency_range power_spectral_density py_eq
     self sc_params log = (Ok self, log)) ∧
  (dict_eq py_eq sc_params (_sc_params self) = false →
   update_sc_params frequency_range power_spectral_density py_eq
     self sc_params log
   = set_sc frequency_range power_spectral_density
       (set_sc_params self sc_params) log ∧
   (interpolate_sc self = false →
    update_sc_params frequency_range power_spectral_density py_eq
      self sc_params log
    = (Ok (set_sc_field (set_sc_params self sc_params) None), log)) ∧
   (interpolate_sc self = true →
    ∀ curve,
      interp1d frequency_range
        (power_spectral_density frequency_range (sc_params ∪ default_params))
        (sc_fill_value, sc_fill_value) = Ok curve →
      ∃ self',
        update_sc_params frequency_range power_spectral_density py_eq
          self sc_params log
        = (Ok self',
           log ++ [LisaPowerSpectralDensity (sc_params ∪ default_params)]) ∧
        _sc_params self' = sc_params ∧
        sc self' = Some (λ f, curve f))).
Proof.
  split.
  - intros Heq. unfold update_sc_params. rewrite Heq. reflexivity.
  - intros Hne.
    assert (Hrun : update_sc_params frequency_range power_spectral_density
                     py_eq self sc_params log
                   = set_sc frequency_range power_spectral_density
                       (set_sc_params self sc_params) log).
    { unfold update_sc_params. rewrite Hne. reflexivity. }
    split; [exact Hrun|]. split.
    + intros Hi. rewrite Hrun. unfold set_sc. cbn [set_sc_params interpolate_sc].
      rewrite Hi. reflexivity.
    + intros Hi curve Hc. rewrite Hrun.
      exists (set_sc_field (set_sc_params self sc_params) (Some (λ f, curve f))).
      split; [|split; reflexivity].
      apply set_sc_run; [exact Hi | exact Hc].
Qed.

End SensitivityCurve.

(** ** The constructor *)

(** The loop of assertions fails at the first argument that is not a
    quantity, with the message that names it. *)
Lemma assert_units_first (unit_args : list pyval) :
  ∀ (names : list string) (i : nat) (name : string),
  first_without_units unit_args i → names !! i = Some name →
  assert_units unit_args names = Raise (must_have_units name).
Proof.
  induction unit_args as [|arg unit_args IH];
    intros names i name [(x & Hx & Hq) Hbefore] Hname.
  - rewrite lookup_nil in Hx. discriminate.
  - destruct names as [|n names]; [rewrite lookup_nil in Hname; discriminate|].
    destruct i as [|i]; simpl in Hx, Hname.
    + injection Hx as ->. injection Hname as ->. simpl. rewrite Hq.
      reflexivity.
    + simpl. rewrite (Hbefore 0 arg) by (simpl; auto; lia).
      apply (IH names i name); [|exact Hname].
      split; [eauto|]. intros j y Hj Hy.
      apply (Hbefore (S j) y); [lia | exact Hy].
Qed.

Section Constructor.

Variable get_f_orb_from_a : ∀ (a m_1 m_2 : pyval), result pyval.
Variable get_a_from_f_orb : ∀ (f_orb m_1 m_2 : pyval), result pyval.
Variable ensure_array : list pyval → result (list pyval).
Variable chirp_mass : ∀ (m_1 m_2 : list Q), list Q.
Variable peters_g : Z → Q → Q.
Variable peters_f : Q → Q.
Variable lum_info : lum_table.
Variable interp2d_peters_g : Z → Q → Q.
Variable frequency_range : list Q.
Variable power_spectral_density : list Q → gmap string pyval → list Q.

(** C6, as amended.  With [f_orb] and [a] both supplied, if one of [m_1],
    [m_2], [dist], [f_orb], [a] is not a quantity the constructor raises the
    [AssertionError] that names the first such argument, and nothing has been
    called or loaded before: the log of calls is unchanged.  With only one of
    [f_orb] and [a] supplied the other is first derived by the conversion of
    [legwork.utils], and when the conversion returns the same assertion is
    made on the five values, this one call being all that ran.  With neither
    supplied the constructor raises the [ValueError] about [f_orb] and [a]
    before it looks at any unit. *)
Theorem init_asserts_units (m_1 m_2 ecc dist : pyval) (n_proc : Z)
    (f_orb a : pyval) (gw_lum_tol stat_tol : Q)
    (interpolate_g interpolate_sc : bool) (sc_params : gmap string pyval)
    (log : list call) (i : nat) (name : string) :
  unit_args_str !! i = Some name →
  (is_none f_orb = false → is_none a = false →
   first_without_units [m_1; m_2; dist; f_orb; a] i →
   init get_f_orb_from_a get_a_from_f_orb ensure_array chirp_mass peters_g
         peters_f lum_info interp2d_peters_g frequency_range
         power_spectral_density
         m_1 m_2 ecc dist n_proc f_orb a gw_lum_tol stat_tol
         interpolate_g interpolate_sc sc_params log
   = (Raise (must_have_units name), log)) ∧
  (∀ f_orb', f_orb = PyNone → is_none a = false →
   get_f_orb_from_a a m_1 m_2 = Ok f_orb' →
   first_without_units [m_1; m_2; dist; f_orb'; a] i →
   init get_f_orb_from_a get_a_from_f_orb ensure_array chirp_mass peters_g
         peters_f lum_info interp2d_peters_g frequency_range
         power_spectral_density
         m_1 m_2 ecc dist n_proc f_orb a gw_lum_tol stat_tol
         interpolate_g interpolate_sc sc_params log
   = (Raise (must_have_units name), log ++ [UtilsGetFOrbFromA])) ∧
  (∀ a', a = PyNone → is_none f_orb = false →
   get_a_from_f_orb f_orb m_1 m_2 = Ok a' →
   first_without_units [m_1; m_2; dist; f_orb; a'] i →
   init get_f_orb_from_a get_a_from_f_orb ensure_array chirp_mass peters_g
         peters_f lum_info interp2d_peters_g frequency_range
         power_spectral_density
         m_1 m_2 ecc dist n_proc f_orb a gw_lum_tol stat_tol
         interpolate_g interpolate_sc sc_params log
   = (Raise (must_have_units name), log ++ [UtilsGetAFromFOrb])) ∧
  (f_orb = PyNone → a = PyNone →
   init get_f_orb_from_a get_a_from_f_orb ensure_array chirp_mass peters_g
         peters_f lum_info interp2d_peters_g frequency_range
         power_spectral_density
         m_1 m_2 ecc dist n_proc f_orb a gw_lum_tol stat_tol
         interpolate_g interpolate_sc sc_params log
   = (Raise (ValueError "Either `f_orb` or `a` must be specified"), log)).
Proof.
  intros Hname. unfold init.
  unfold raise, called, lift, mbind, M_bind, mret, M_ret.
  split; [|split; [|split]].
  - intros Hf Ha Hfirst. rewrite Hf, Ha. cbn [andb].
    rewrite (assert_units_first _ _ i name Hfirst Hname). reflexivity.
  - intros f_orb' -> Ha Hconv Hfirst. cbn [is_none andb]. rewrite Ha, Hconv.
    rewrite (assert_units_first _ _ i name Hfirst Hname). reflexivity.
  - intros a' -> Hf Hconv Hfirst. cbn [is_none andb]. rewrite Hf.
    cbn [andb]. rewrite Hconv.
    rewrite (assert_units_first _ _ i name Hfirst Hname). reflexivity.
  - intros -> ->. reflexivity.
Qed.

End Constructor.

(** ** Runs on the sample inputs *)

Lemma sample_stationarity_length : ∀ mc fo t e st,
  length fo = length mc → length e = length mc →
  length (sample.determine_stationarity mc fo t e st) = length mc.
Proof. intros. unfold sample.determine_stationarity. rewrite length_map. auto. Qed.

Lemma sample_circ_stationary_length : ∀ mc fo d t ig isc,
  length fo = length mc → length d = length mc →
  length (sample.snr_circ_stationary mc fo d t ig isc) = length mc.
Proof. intros. apply length_map. Qed.

Lemma sample_ecc_stationary_length : ∀ mc fo e d t hr ig isc,
  length fo = length mc → length e = length mc → length d = length mc →
  length (sample.snr_ecc_stationary mc fo e d t hr ig isc) = length mc.
Proof. intros. apply length_map. Qed.

Lemma sample_circ_evolving_length : ∀ m1 m2 fo d t ns ig isc,
  length m2 = length m1 → length fo = length m1 → length d = length m1 →
  length (sample.snr_circ_evolving m1 m2 fo d t ns ig isc) = length m1.
Proof. intros. apply length_map. Qed.

Lemma sample_ecc_evolving_length : ∀ m1 m2 fo d e hr t ns ig isc np,
  length m2 = length m1 → length fo = length m1 → length d = length m1 →
  length e = length m1 →
  length (sample.snr_ecc_evolving m1 m2 fo d e hr t ns ig isc np) = length m1.
Proof. intros. apply length_map. Qed.

Lemma sample_source_same_length (hr : Q → Z) (e0 e1 e2 : Q) :
  same_length (sample.source_of hr [e0; e1; e2]).
Proof. constructor; reflexivity. Qed.

Lemma sample_table_ok : table_ok sample.lum_info.
Proof.
  constructor.
  - repeat constructor.
  - repeat constructor; vm_compute; discriminate.
  - simpl. lia.
  - reflexivity.
  - repeat constructor.
  - simpl. lia.
Qed.

Lemma sample_table_high_ok : table_ok sample.lum_info_high.
Proof.
  constructor.
  - repeat constructor.
  - repeat constructor; vm_compute; discriminate.
  - simpl. lia.
  - reflexivity.
  - unfold sample.lum_info_high. cbn [g_vals n_max].
    repeat constructor; rewrite length_replicate; apply Z2Nat.id; lia.
  - simpl. lia.
Qed.

(** The split of [get_snr] on the three sample sources. *)
Lemma get_snr_scatter_witness :
  same_length sample.source_low ∧
  ∃ stat_mask snr,
    get_source_mask sample.determine_stationarity sample.source_low
      PyNone (PyBool true) 4 = Ok stat_mask ∧
    get_snr sample.determine_stationarity sample.snr_circ_stationary
      sample.snr_ecc_stationary sample.snr_circ_evolving
      sample.snr_ecc_evolving sample.source_low 4 100
    = Ok (set_snr sample.source_low (Some snr), snr) ∧
    length snr = 3.
Proof.
  split; [apply sample_source_same_length|].
  destruct (get_snr_scatter sample.determine_stationarity
              sample.snr_circ_stationary sample.snr_ecc_stationary
              sample.snr_circ_evolving sample.snr_ecc_evolving
              sample_stationarity_length sample_circ_stationary_length
              sample_ecc_stationary_length sample_circ_evolving_length
              sample_ecc_evolving_length sample.source_low 4%Q 100%Z
              (sample_source_same_length _ _ _ _))
    as (stat_mask & snr & Hmask & _ & Hsnr & Hlen & _).
  exists stat_mask, snr. split; [exact Hmask|]. split; [exact Hsnr|].
  exact Hlen.
Defined.

Lemma sample_low_in_range : ∀ i e,
  ind_ecc sample.source_low [true; true; true] !! i = Some true →
  ecc sample.source_low !! i = Some e →
  (1 <= harmonics_required sample.source_low e < 10000)%Z.
Proof.
  intros i e Hi He.
  destruct i as [|[|[|i]]]; try discriminate He; injection He as <-;
    vm_compute; split; first [discriminate | reflexivity].
Qed.

(** The groups of the sample sources whose counts are 2, 4 and 5. *)
Lemma harmonic_bucketing_in_range_witness :
  same_length sample.source_low ∧
  sum_list (np.count <$> bucket_masks sample.source_low [true; true; true])
  = np.count (ind_ecc sample.source_low [true; true; true]).
Proof.
  split; [apply sample_source_same_length|].
  destruct (harmonic_bucketing_in_range
              sample.snr_circ_stationary sample.snr_ecc_stationary
              sample.snr_circ_evolving sample.snr_ecc_evolving
              sample_circ_stationary_length sample_ecc_stationary_length
              sample_circ_evolving_length sample_ecc_evolving_length
              sample.source_low 4%Q 100%Z [true; true; true]
              (sample_source_same_length _ _ _ _) eq_refl
              sample_low_in_range)
    as (_ & Hsum & _).
  exact Hsum.
Defined.

(** C2 as stated fails on a source that needs 10000 harmonics: the third
    sample source is eccentric and in no group, so that the groups hold one
    source where there are two eccentric sources.  Its count comes from a
    table with [n_max = 10000]. *)
Lemma harmonic_bucketing_loses_source :
  table_ok sample.lum_info_high ∧
  harmonics_needed_table sample.peters_f_high (5 # 100) sample.lum_info_high
  = Ok [2; 10000]%Z ∧
  map (harmonics_required sample.source_high) (ecc sample.source_high)
  = [2; 5052; 10000]%Z ∧
  ind_ecc sample.source_high [true; true; true] !! 2 = Some true ∧
  map (λ mask : list bool, mask !! 2)
      (bucket_masks sample.source_high [true; true; true])
  = [Some false; Some false; Some false; Some false] ∧
  sum_list (np.count <$> bucket_masks sample.source_high [true; true; true])
  = 1 ∧
  np.count (ind_ecc sample.source_high [true; true; true]) = 2 ∧
  sum_list (np.count <$> bucket_masks sample.source_high [true; true; true])
  ≠ np.count (ind_ecc sample.source_high [true; true; true]).
Proof.
  split; [exact sample_table_high_ok|].
  vm_compute. repeat split. discriminate.
Qed.

(** The third sample source, which needs 10000 harmonics, is left at 0. *)
Lemma high_harmonic_count_left_at_zero_witness :
  (10000 <= harmonics_required sample.source_high (99 # 100))%Z ∧
  (∃ out, get_snr_stationary sample.snr_circ_stationary
            sample.snr_ecc_stationary sample.source_high 4
            (Some [true; true; true]) = Ok out ∧
          out !! 2 = Some 0%Q) ∧
  (∃ out, get_snr_evolving sample.snr_circ_evolving
            sample.snr_ecc_evolving sample.source_high 4 100
            (Some [true; true; true]) = Ok out ∧
          out !! 2 = Some 0%Q).
Proof.
  assert (Hh : (10000 <= harmonics_required sample.source_high (99 # 100))%Z)
    by (vm_compute; discriminate).
  split; [exact Hh|].
  destruct (high_harmonic_count_left_at_zero
              sample.snr_circ_stationary sample.snr_ecc_stationary
              sample.snr_circ_evolving sample.snr_ecc_evolving
              sample_circ_stationary_length sample_ecc_stationary_length
              sample_circ_evolving_length sample_ecc_evolving_length
              sample.source_high 4%Q 100%Z (Some [true; true; true]) 2
              (99 # 100)%Q
              (sample_source_same_length _ _ _ _) eq_refl eq_refl eq_refl
              eq_refl Hh)
    as (_ & _ & (out_s & Hs & _ & Hzs) & (out_e & He & _ & Hze)).
  split; [exists out_s | exists out_e]; split; assumption.
Defined.

(** The tri-state arguments on the sample sources. *)
Lemma get_source_mask_tri_state_witness :
  get_source_mask sample.determine_stationarity sample.source_low
    (PyInt 1) PyNone 4
  = Raise (ValueError "`circular` must be None, True or False") ∧
  get_source_mask sample.determine_stationarity sample.source_low
    PyNone (PyStr "yes") 4
  = Raise (ValueError "`stationary` must be None, True or False") ∧
  ∃ mask, get_source_mask sample.determine_stationarity sample.source_low
            (PyBool false) (PyBool true) 4 = Ok mask ∧
          length mask = 3.
Proof.
  split; [|split].
  - destruct (get_source_mask_tri_state sample.determine_stationarity
                sample_stationarity_length sample.source_low
                (PyInt 1) PyNone 4%Q) as (H & _ & _).
    apply H. unfold tri_state. intros [H1|[H1|H1]]; discriminate H1.
  - destruct (get_source_mask_tri_state sample.determine_stationarity
                sample_stationarity_length sample.source_low
                PyNone (PyStr "yes") 4%Q) as (_ & H & _).
    apply H; unfold tri_state; [left; reflexivity|].
    intros [H1|[H1|H1]]; discriminate H1.
  - destruct (get_source_mask_tri_state sample.determine_stationarity
                sample_stationarity_length sample.source_low
                (PyBool false) (PyBool true) 4%Q) as (_ & _ & H).
    destruct H as (mask & Hmask & Hlen); unfold tri_state; auto.
    exists mask. split; [exact Hmask|].
    apply Hlen, sample_source_same_length.
Defined.




Lemma harmonics_required_boundaries_witness :
  table_ok sample.lum_info ∧
  ∃ self' log',
    create_harmonics_functions sample.peters_f sample.lum_info
      sample.source_low [] = (Ok self', log') ∧
    harmonics_required self' 0%Q = 2%Z ∧
    harmonics_required self' (95 # 100) = 5%Z.
Proof.
  split; [exact sample_table_ok|].
  destruct (harmonics_required_boundaries sample.peters_f sample.lum_info
              sample_table_ok sample.source_low [])
    as (self' & log' & hn & e_min & e_max & Hrun & Hhn & Hmin & Hmax & H0
        & _ & Habove & _).
  exists self', log'. split; [exact Hrun|]. split; [exact H0|].
  rewrite Habove.
  - assert (Hhn' : harmonics_needed_table sample.peters_f
                     (_gw_lum_tol sample.source_low) sample.lum_info
                   = Ok [2; 4; 5]%Z) by (vm_compute; reflexivity).
    rewrite Hhn' in Hhn. injection Hhn as <-. reflexivity.
  - rewrite <- Hmax. vm_compute. reflexivity.
Defined.


(** The constructor on a mass without units. *)
Lemma init_asserts_units_witness :
  init sample.get_f_orb_from_a sample.get_a_from_f_orb sample.ensure_array
    sample.chirp_mass sample.peters_g_falling sample.peters_f
    sample.lum_info sample.interp2d_peters_g sample.frequency_range
    sample.power_spectral_density
    (PyFloat 10) (PyQuantity [10%Q] "Msun") (PyFloat 0)
    (PyQuantity [1%Q] "kpc") 1 (PyQuantity [1 # 1000] "Hz")
    (PyQuantity [1 # 10] "AU") (5 # 100) (1 # 100) true true ∅ []
  = (Raise (AssertionError "`m_1` must have units"), []).
Proof.
  destruct (init_asserts_units sample.get_f_orb_from_a
              sample.get_a_from_f_orb sample.ensure_array sample.chirp_mass
              sample.peters_g_falling sample.peters_f sample.lum_info
              sample.interp2d_peters_g sample.frequency_range
              sample.power_spectral_density
              (PyFloat 10) (PyQuantity [10%Q] "Msun") (PyFloat 0)
              (PyQuantity [1%Q] "kpc") 1%Z (PyQuantity [1 # 1000] "Hz")
              (PyQuantity [1 # 10] "AU") (5 # 100) (1 # 100) true true ∅ []
              0 "m_1" eq_refl) as (H & _).
  apply H; [reflexivity | reflexivity |].
  split.
  - exists (PyFloat 10). split; reflexivity.
  - intros j arg Hj. lia.
Defined.

(** C6 as stated fails in two ways on a mass without units.  With neither
    [f_orb] nor [a] the constructor raises the [ValueError] about them, not
    an [AssertionError]; and with [a] alone the frequency has been derived by
    [utils.get_f_orb_from_a] by the time the assertion fails. *)
Lemma init_unitless_mass_other_outcomes :
  is_quantity (PyFloat 10) = false ∧
  init sample.get_f_orb_from_a sample.get_a_from_f_orb sample.ensure_array
    sample.chirp_mass sample.peters_g_falling sample.peters_f
    sample.lum_info sample.interp2d_peters_g sample.frequency_range
    sample.power_spectral_density
    (PyFloat 10) (PyQuantity [10%Q] "Msun") (PyFloat 0)
    (PyQuantity [1%Q] "kpc") 1 PyNone PyNone
    (5 # 100) (1 # 100) true true ∅ []
  = (Raise (ValueError "Either `f_orb` or `a` must be specified"), []) ∧
  (∀ msg log',
     init sample.get_f_orb_from_a sample.get_a_from_f_orb sample.ensure_array
       sample.chirp_mass sample.peters_g_falling sample.peters_f
       sample.lum_info sample.interp2d_peters_g sample.frequency_range
       sample.power_spectral_density
       (PyFloat 10) (PyQuantity [10%Q] "Msun") (PyFloat 0)
       (PyQuantity [1%Q] "kpc") 1 PyNone PyNone
       (5 # 100) (1 # 100) true true ∅ []
     ≠ (Raise (AssertionError msg), log')) ∧
  init sample.get_f_orb_from_a sample.get_a_from_f_orb sample.ensure_array
    sample.chirp_mass sample.peters_g_falling sample.peters_f
    sample.lum_info sample.interp2d_peters_g sample.frequency_range
    sample.power_spectral_density
    (PyFloat 10) (PyQuantity [10%Q] "Msun") (PyFloat 0)
    (PyQuantity [1%Q] "kpc") 1 PyNone (PyQuantity [1 # 10] "AU")
    (5 # 100) (1 # 100) true true ∅ []
  = (Raise (AssertionError "`m_1` must have units"), [UtilsGetFOrbFromA]).
Proof.
  split; [reflexivity|]. split; [reflexivity|]. split; [|reflexivity].
  intros msg log' H. vm_compute in H. discriminate H.
Qed.


(** The same parameters, and new ones, on the sample source. *)
Lemma update_sc_params_rebuilds_iff_changed_witness :
  update_sc_params sample.frequency_range sample.power_spectral_density
    sample.py_eq sample.source_low ∅ []
  = (Ok sample.source_low, []) ∧
  ∃ self',
    update_sc_params sample.frequency_range sample.power_spectral_density
      sample.py_eq sample.source_low {[ "t_obs" := PyQuantity [5%Q] "yr" ]} []
    = (Ok self',
       [LisaPowerSpectralDensity
          ({[ "t_obs" := PyQuantity [5%Q] "yr" ]} ∪ default_params)]) ∧
    _sc_params self' = {[ "t_obs" := PyQuantity [5%Q] "yr" ]}.
Proof.
  split.
  - destruct (update_sc_params_rebuilds_iff_changed sample.frequency_range
                sample.power_spectral_density sample.py_eq
                sample.source_low ∅ []) as [H _].
    apply H. vm_compute. reflexivity.
  - destruct (update_sc_params_rebuilds_iff_changed sample.frequency_range
                sample.power_spectral_density sample.py_eq
                sample.source_low {[ "t_obs" := PyQuantity [5%Q] "yr" ]} [])
      as [_ H].
    destruct H as (_ & _ & H); [vm_compute; reflexivity|].
    destruct (H eq_refl _
                (interp1d_ok (1 # 10000000)%Q [1 # 1000; 2]%Q 1%Q [1; 1]%Q
                   (sc_fill_value, sc_fill_value) eq_refl))
      as (self' & Hrun & Hparams & _).
    exists self'. split; [exact Hrun | exact Hparams].
Defined.

(** C9 as stated fails on an object that does not interpolate the
    sensitivity curve: with parameters that differ from the stored ones
    [update_sc_params] stores them, but [set_sc] then computes nothing;
    [lisa.power_spectral_density] is not called and the curve stays
    [None]. *)
Lemma update_sc_params_changed_no_rebuild :
  dict_eq sample.py_eq {[ "t_obs" := PyQuantity [5%Q] "yr" ]}
    (_sc_params sample.source_no_curve) = false ∧
  sc sample.source_no_curve = None ∧
  ∃ self',
    update_sc_params sample.frequency_range sample.power_spectral_density
      sample.py_eq sample.source_no_curve
      {[ "t_obs" := PyQuantity [5%Q] "yr" ]} []
    = (Ok self', []) ∧
    _sc_params self' = {[ "t_obs" := PyQuantity [5%Q] "yr" ]} ∧
    sc self' = None.
Proof.
  assert (Hne : dict_eq sample.py_eq {[ "t_obs" := PyQuantity [5%Q] "yr" ]}
                  (_sc_params sample.source_no_curve) = false)
    by (vm_compute; reflexivity).
  split; [exact Hne|]. split; [reflexivity|].
  eexists. split.
  - unfold update_sc_params. rewrite Hne. cbn [negb]. unfold set_sc.
    cbn [set_sc_params interpolate_sc sample.source_no_curve].
    reflexivity.
  - split; reflexivity.
Qed.
